(** * A5/1 keystream generator (A51.c): shallow embedding and properties

    The program keeps the three shift registers R1, R2, R3 in global
    variables of type [word] (C's [unsigned long]).  [keysetup] shifts a
    word right by up to 63 places and [test] stores the 64-bit constant
    0x911A2B3C4D5E6F0F in a [word], so a [word] has 64 bits here.  A word
    is a [Z] in [0, 2^64); the only operation of the program that can leave
    that range is the left shift, whose wrap-around is written out. *)

From Stdlib Require Import ZArith Bool Lia List.
From stdpp Require Import base list strings pretty.
Import ListNotations.

Local Open Scope Z_scope.

(** ** Machine words *)

Module Word.

Abbreviation word := Z (only parsing).     (* typedef unsigned long word; *)
Abbreviation bit := Z (only parsing).      (* typedef word bit; *)
Abbreviation byte := Z (only parsing).     (* typedef unsigned char byte; *)

Definition wordsize : Z := 64.

Definition is_word (x : Z) : Prop := 0 <= x < 2 ^ wordsize.
Definition is_byte (x : Z) : Prop := 0 <= x < 256.

(** Reduction of a result to the 64 bits of an [unsigned long]. *)
Definition wrap (x : Z) : word := x mod 2 ^ wordsize.

(** [x << n] on [unsigned long]: the bits shifted out at the top are lost. *)
Definition shl (x : word) (n : Z) : word := wrap (Z.shiftl x n).

(** [x >> n] on [unsigned long]. *)
Definition shr (x : word) (n : Z) : word := Z.shiftr x n.

(** Conversion of a word to [unsigned char]. *)
Definition to_byte (x : word) : byte := x mod 256.

(** [w != 0] and [a == b] yield the C integers 0 and 1. *)
Definition nonzero (w : Z) : Z := if w =? 0 then 0 else 1.
Definition eq_int (a b : Z) : Z := if a =? b then 1 else 0.

(** A C integer used as a condition. *)
Definition truthy (c : Z) : bool := negb (c =? 0).

End Word.
Import Word.

Infix "<<" := shl (at level 35, no associativity) : Z_scope.
Infix ">>" := shr (at level 35, no associativity) : Z_scope.
Infix ".&" := Z.land (at level 40, left associativity) : Z_scope.
Infix ".^" := Z.lxor (at level 45, left associativity) : Z_scope.
Infix ".|" := Z.lor (at level 50, left associativity) : Z_scope.

(** ** Constants of the program *)

Definition R1MASK : word := 0x07FFFF.   (* 19 bits, numbered 0..18 *)
Definition R2MASK : word := 0x3FFFFF.   (* 22 bits, numbered 0..21 *)
Definition R3MASK : word := 0x7FFFFF.   (* 23 bits, numbered 0..22 *)

Definition R1MID : word := 0x000100.    (* bit 8 *)
Definition R2MID : word := 0x000400.    (* bit 10 *)
Definition R3MID : word := 0x000400.    (* bit 10 *)

Definition R1TAPS : word := 0x072000.   (* bits 18,17,16,13 *)
Definition R2TAPS : word := 0x300000.   (* bits 21,20 *)
Definition R3TAPS : word := 0x700080.   (* bits 22,21,20,7 *)

Definition R1SHIFT : Z := 64.
Definition R2SHIFT : Z := 45.
Definition R3SHIFT : Z := 23.

Definition R1SIZE : Z := 19.
Definition R2SIZE : Z := 22.
Definition R3SIZE : Z := 23.

(** ** Pure helpers of the program *)

(** [bit parity(word x)] *)
Definition parity (x : word) : bit :=
  let x := x .^ (x >> 16) in
  let x := x .^ (x >> 8) in
  let x := x .^ (x >> 4) in
  let x := x .^ (x >> 2) in
  let x := x .^ (x >> 1) in
  x .& 1.

(** [word clockone(word reg, word mask, word taps)] *)
Definition clockone (reg mask taps : word) : word :=
  let t := reg .& taps in
  let reg := (reg << 1) .& mask in
  let reg := reg .| parity t in
  reg.

(** [bit majority(word w1, word w2, word w3)] *)
Definition majority (w1 w2 w3 : word) : bit :=
  let sum := nonzero w1 + nonzero w2 + nonzero w3 in
  if sum >=? 2 then 1 else 0.

(** ** The global registers and the state monad over them *)

Record regs : Type := Regs { R1 : word; R2 : word; R3 : word }.

(** The three register lanes, naming the global variable an access is to. *)
Inductive lane : Type := L1 | L2 | L3.

Definition get (l : lane) (s : regs) : word :=
  match l with L1 => R1 s | L2 => R2 s | L3 => R3 s end.

Definition set (l : lane) (v : word) (s : regs) : regs :=
  match l with
  | L1 => Regs v (R2 s) (R3 s)
  | L2 => Regs (R1 s) v (R3 s)
  | L3 => Regs (R1 s) (R2 s) v
  end.

Module St.

Definition St (A : Type) : Type := regs -> A * regs.

Definition ret {A} (a : A) : St A := fun s => (a, s).

Definition bind {A B} (m : St A) (k : A -> St B) : St B :=
  fun s => let r := m s in k (fst r) (snd r).

Definition rd (l : lane) : St word := fun s => (get l s, s).
Definition wr (l : lane) (v : word) : St unit := fun s => (tt, set l v s).

(** [if (c) body] *)
Definition when (c : bool) (body : St unit) : St unit :=
  if c then body else ret tt.

(** Value and final state of a computation. *)
Definition eval {A} (m : St A) (s : regs) : A := fst (m s).
Definition exec {A} (m : St A) (s : regs) : regs := snd (m s).

(** [n] iterations of a loop body, the counter starting at [i]. *)
Fixpoint iterate (n : nat) (i : Z) (body : Z -> St unit) : St unit :=
  match n with
  | O => ret tt
  | S n' => bind (body i) (fun _ => iterate n' (i + 1) body)
  end.

(** [for (i = lo; i < hi; i++) body], for a body that leaves [i] alone. *)
Definition for_ (lo hi : Z) (body : Z -> St unit) : St unit :=
  iterate (Z.to_nat (hi - lo)) lo body.

End St.
Import St.

Notation "x <- m ;; k" := (bind m (fun x => k))
  (at level 100, m at next level, right associativity) : Z_scope.
Notation "m ;; k" := (bind m (fun _ => k))
  (at level 100, right associativity) : Z_scope.

(** ** The cipher engine *)

(** [void clock(int allP, int loaded)] *)
Definition clock (allP loaded : Z) : St unit :=
  a <- rd L1 ;; b <- rd L2 ;; c <- rd L3 ;;
  let maj := majority (a .& R1MID) (b .& R2MID) (c .& R3MID) in
  (x <- rd L1 ;;
   when (truthy allP || truthy (eq_int (nonzero (x .& R1MID)) maj))
        (y <- rd L1 ;; wr L1 (clockone y R1MASK R1TAPS))) ;;
  (x <- rd L2 ;;
   when (truthy allP || truthy (eq_int (nonzero (x .& R2MID)) maj))
        (y <- rd L2 ;; wr L2 (clockone y R2MASK R2TAPS))) ;;
  (x <- rd L3 ;;
   when (truthy allP || truthy (eq_int (nonzero (x .& R3MID)) maj))
        (y <- rd L3 ;; wr L3 (clockone y R3MASK R3TAPS))).

(** [bit getbit()] *)
Definition getbit : St bit :=
  a <- rd L1 ;; b <- rd L2 ;; c <- rd L3 ;;
  let topbits := ((a >> 18) .^ (b >> 21) .^ (c >> 22)) .& 0x01 in
  ret topbits.

(** Body of a loading loop of [keysetup], for the register [l]:
    [bitkey = (key >> (shift-i-1)) & 1; R <<= 1; R ^= bitkey;] *)
Definition load_body (l : lane) (shift : Z) (key : word) (i : Z) : St unit :=
  let bitkey := (key >> (shift - i - 1)) .& 1 in
  (x <- rd l ;; wr l (x << 1)) ;;
  (x <- rd l ;; wr l (x .^ bitkey)).

(** One of the three loading loops of [keysetup]:
    [for (i = 0; i < size; i++) { ... }] *)
Definition load (l : lane) (size shift : Z) (key : word) : St unit :=
  for_ 0 size (load_body l shift key).

(** [void keysetup(word key, word frame)] *)
Definition keysetup (key frame : word) : St unit :=
  (* R1 = R2 = R3 = 0; *)
  wr L3 0 ;; wr L2 0 ;; wr L1 0 ;;
  load L1 R1SIZE R1SHIFT key ;;
  load L2 R2SIZE R2SHIFT key ;;
  load L3 R3SIZE R3SHIFT key.

(** ** Keystream generation *)

(** The two caller-supplied output arrays of [run] next to the registers.
    They are two separate arrays, as in [test]. *)
Record mem : Type := Mem {
  cipher : regs;
  AtoBkeystream : list byte;
  BtoAkeystream : list byte
}.

(** Array accesses.  An index outside the array is undefined behaviour in
    C: the access has no result. *)
Definition load_byte (buf : list byte) (i : Z) : option byte :=
  if 0 <=? i then buf !! Z.to_nat i else None.

Definition store_byte (buf : list byte) (i : Z) (v : byte) : option (list byte) :=
  if (0 <=? i) && (i <? Z.of_nat (length buf))
  then Some (<[Z.to_nat i := v]> buf)
  else None.

(** [n] iterations of a loop body over [mem], the counter starting at [i]. *)
Fixpoint repeat_from (n : nat) (i : Z) (body : Z -> mem -> option mem)
    (m : mem) : option mem :=
  match n with
  | O => Some m
  | S n' => m' ← body i m; repeat_from n' (i + 1) body m'
  end.

(** [for (i = lo; i < hi; i++) body] *)
Definition for_mem (lo hi : Z) (body : Z -> mem -> option mem) (m : mem)
    : option mem :=
  repeat_from (Z.to_nat (hi - lo)) lo body m.

(** [AtoBkeystream[i] = BtoAkeystream[i] = 0;] *)
Definition zero_out (i : Z) (m : mem) : option mem :=
  b ← store_byte (BtoAkeystream m) i 0;
  a ← store_byte (AtoBkeystream m) i 0;
  Some (Mem (cipher m) a b).

(** Body of the generation loop, the printing left out (it reads the
    registers and writes to the terminal only):
    [AtoBkeystream[i/8] |= getbit() << (7-(i&7)); clock(0,0);] *)
Definition emit (i : Z) (m : mem) : option mem :=
  old ← load_byte (AtoBkeystream m) (Z.quot i 8);
  let r := getbit (cipher m) in
  a ← store_byte (AtoBkeystream m) (Z.quot i 8)
        (to_byte (old .| (fst r << (7 - (i .& 7)))));
  Some (Mem (exec (clock 0 0) (snd r)) a (BtoAkeystream m)).

(** [void run(byte AtoBkeystream[], byte BtoAkeystream[])] *)
Definition run (m : mem) : option mem :=
  m1 ← for_mem 0 (Z.quot 113 8 + 1) zero_out m;   (* i <= 113/8 *)
  for_mem 0 6 emit m1.

(** The bits the generation loop takes from [getbit] in [n] iterations,
    each followed by [clock(0,0)], and the registers it leaves. *)
Fixpoint generate (n : nat) : St (list bit) :=
  match n with
  | O => ret []
  | S n' =>
      b <- getbit ;; clock 0 0 ;; bs <- generate n' ;; ret (b :: bs)
  end.

(** One clock step under majority control, and the state after [i] of them. *)
Definition step (s : regs) : regs := exec (clock 0 0) s.
Definition after (i : nat) (s : regs) : regs := Nat.iter i step s.

(** [void test()], up to the printing. *)
Definition test (m : mem) : option mem :=
  let key := 0x911A2B3C4D5E6F0F in
  let frame := 0x134 in
  run (Mem (exec (keysetup key frame) (cipher m))
           (AtoBkeystream m) (BtoAkeystream m)).

(** * Notions the properties are stated with *)

(** ** Clock control *)

(** Per-lane constants, as [clock] pairs them with the registers. *)
Definition MASK (l : lane) : word :=
  match l with L1 => R1MASK | L2 => R2MASK | L3 => R3MASK end.
Definition MID (l : lane) : word :=
  match l with L1 => R1MID | L2 => R2MID | L3 => R3MID end.
Definition TAPS (l : lane) : word :=
  match l with L1 => R1TAPS | L2 => R2TAPS | L3 => R3TAPS end.

(** The value [clock] computes for [maj] on entry. *)
Definition maj_of (s : regs) : bit :=
  majority (R1 s .& R1MID) (R2 s .& R2MID) (R3 s .& R3MID).

(** The condition of the [if] that guards lane [l] in [clock], evaluated on
    the state [clock] is entered with: lane [l] is clocked iff it holds. *)
Definition clocks (allP : Z) (l : lane) (s : regs) : bool :=
  truthy allP || truthy (eq_int (nonzero (get l s .& MID l)) (maj_of s)).

(** Number of lanes [clock] advances from state [s]. *)
Definition clocked_lanes (allP : Z) (s : regs) : Z :=
  Z.b2z (clocks allP L1 s) + Z.b2z (clocks allP L2 s) + Z.b2z (clocks allP L3 s).

(** The control bit of a lane and the majority vote, as the specification
    words them. *)
Definition control_bit (l : lane) (s : regs) : bool :=
  match l with
  | L1 => Z.testbit (R1 s) 8
  | L2 => Z.testbit (R2 s) 10
  | L3 => Z.testbit (R3 s) 10
  end.

Definition at_least_two (a b c : bool) : bool :=
  2 <=? Z.b2z a + Z.b2z b + Z.b2z c.

Definition should_clock (force_all : bool) (l : lane) (s : regs) : bool :=
  force_all
  || eqb (control_bit l s)
         (at_least_two (control_bit L1 s) (control_bit L2 s) (control_bit L3 s)).

(** ** Reachable states and register widths *)

(** States the program can be in once [keysetup] has run: the state it
    leaves, and every state a call of [clock] leads to from there. *)
Inductive reachable : regs -> Prop :=
| reach_keysetup (key frame : word) (s0 : regs) :
    reachable (exec (keysetup key frame) s0)
| reach_clock (allP loaded : Z) (s : regs) :
    reachable s -> reachable (exec (clock allP loaded) s).

Definition width (l : lane) : Z :=
  match l with L1 => R1SIZE | L2 => R2SIZE | L3 => R3SIZE end.

Definition in_width (s : regs) : Prop :=
  forall l, 0 <= get l s < 2 ^ width l.

(** ** Population count *)

(** Number of set bits among bits [0 .. n-1] of [x]. *)
Fixpoint popcount (n : nat) (x : Z) : nat :=
  match n with
  | O => O
  | S k => (if Z.testbit x (Z.of_nat k) then 1 else 0) + popcount k x
  end.

(** XOR of bits [0 .. n-1] of [x]. *)
Fixpoint xor_bits (n : nat) (x : Z) : bool :=
  match n with
  | O => false
  | S k => xorb (Z.testbit x (Z.of_nat k)) (xor_bits k x)
  end.

(** ** Output bit and packed keystream *)

(** The output bit as the specification words it. *)
Definition output_bit (s : regs) : bool :=
  xorb (xorb (Z.testbit (R1 s) 18) (Z.testbit (R2 s) 21)) (Z.testbit (R3 s) 22).

(** Bit [q] of byte [j] of the A->B array once the loop has stored [k] bits,
    starting from registers [s]: bit number [i] of the keystream sits in
    byte [i / 8] at position [7 - i mod 8]. *)
Definition stored_bit (s : regs) (k j q : Z) : bool :=
  (q <? 8) && (8 * j + 7 - q <? k)
  && output_bit (after (Z.to_nat (8 * j + 7 - q)) s).

Definition packed (s : regs) (k : Z) (buf : list byte) : Prop :=
  length buf = 15%nat
  /\ forall j q, 0 <= j < 15 -> 0 <= q ->
       Z.testbit (buf !!! Z.to_nat j) q = stored_bit s k j q.

(** ** Feedback of the shift registers *)

(** The feedback bit of a lane: the XOR of its tap bits (18,17,16,13 for
    R1; 21,20 for R2; 22,21,20,7 for R3). *)
Definition feedback (l : lane) (reg : word) : bool :=
  match l with
  | L1 => xorb (xorb (xorb (Z.testbit reg 18) (Z.testbit reg 17))
                     (Z.testbit reg 16)) (Z.testbit reg 13)
  | L2 => xorb (Z.testbit reg 21) (Z.testbit reg 20)
  | L3 => xorb (xorb (xorb (Z.testbit reg 22) (Z.testbit reg 21))
                     (Z.testbit reg 20)) (Z.testbit reg 7)
  end.

(** ** Keys and register states *)

(** The 64-bit word whose bits 63..45, 44..23 and 22..0 are the three
    registers. *)
Definition key_of (s : regs) : word :=
  R1 s * 2 ^ 45 + R2 s * 2 ^ 23 + R3 s.

(** Whether the three control bits of a state agree. *)
Definition control_bits_agree (s : regs) : bool :=
  eqb (control_bit L1 s) (control_bit L2 s)
  && eqb (control_bit L2 s) (control_bit L3 s).

(** ** Longer arrays *)

(** The same registers, with [ta] and [tb] appended to the two arrays. *)
Definition extend (ta tb : list byte) (m : mem) : mem :=
  Mem (cipher m) (AtoBkeystream m ++ ta) (BtoAkeystream m ++ tb).

(** ** Printing a register *)

(** [(int) x] for an [unsigned long] [x]: the low 32 bits read as a two's
    complement number. *)
Definition to_int (x : word) : Z :=
  let y := x mod 2 ^ 32 in if y <? 2 ^ 31 then y else y - 2 ^ 32.

Definition tab : string := String (Ascii.ascii_of_nat 9) "".
Definition newline : string := String (Ascii.ascii_of_nat 10) "".

(** [n] iterations of a loop body that may fail, the counter starting at
    [i]. *)
Fixpoint repeat_opt {S : Type} (n : nat) (i : Z) (body : Z -> S -> option S)
    (s : S) : option S :=
  match n with
  | O => Some s
  | S n' => s' ← body i s; repeat_opt n' (i + 1) body s'
  end.

(** [for (i = lo; i < hi; i++) body] *)
Definition for_opt {S : Type} (lo hi : Z) (body : Z -> S -> option S) (s : S)
    : option S :=
  repeat_opt (Z.to_nat (hi - lo)) lo body s.

(** [bitkeyarray[size-i-1] = (R >> i) & 1;]  The array of [bit]s is
    accessed like the byte arrays of [run]; its cells hold whole words. *)
Definition fill_bit (R : word) (size : Z) (i : Z) (bitkeyarray : list bit)
    : option (list bit) :=
  store_byte bitkeyarray (size - i - 1) ((R >> i) .& 1).

(** [printf("%d", (int)bitkeyarray[i]); if (i % 4 == 4-1) printf(" ");]
    The text printed so far is threaded through. *)
Definition print_bit (bitkeyarray : list bit) (i : Z) (out : string)
    : option string :=
  b ← load_byte bitkeyarray i;
  let out := out +:+ pretty (to_int b) in
  Some (if Z.rem i 4 =? 4 - 1 then out +:+ " " else out).

(** [void printR(word R, int size, char* str)]: the text it prints.
    [block] is the memory [malloc(size*sizeof(bit))] returns, [size] cells
    of unspecified content. *)
Definition printR (R : word) (size : Z) (str : string) (block : list bit)
    : option string :=
  let out := str in
  bitkeyarray ← for_opt 0 size (fill_bit R size) block;
  let out := out +:+ pretty (to_int R) +:+ " " +:+ tab in
  out ← for_opt 0 size (print_bit bitkeyarray) out;
  Some (out +:+ newline).

(** The low [n] bits of [R], most significant first. *)
Fixpoint msb_bits (R : word) (n : nat) : list bit :=
  match n with
  | O => []
  | S k => (R >> Z.of_nat k) .& 1 :: msb_bits R k
  end.

(** The number a list of binary digits denotes, most significant first. *)
Definition binary_value (bits : list bit) : Z :=
  fold_left (fun acc b => 2 * acc + b) bits 0.

(** The digits of a bit list as [printR] lays them out: a space after every
    fourth digit, the first digit being number [i]. *)
Fixpoint show_bits (i : Z) (bits : list bit) : string :=
  match bits with
  | [] => ""
  | b :: rest =>
      pretty (to_int b) +:+ (if Z.rem i 4 =? 3 then " " else "")
      +:+ show_bits (i + 1) rest
  end.

(** ** Reading the arrays of [run] back *)


(** ** The lane left out by the majority *)

(** The lane whose control bit differs from the other two, when the three
    do not agree. *)
Definition minority_lane (s : regs) : lane :=
  if eqb (control_bit L1 s) (control_bit L2 s) then L3
  else if eqb (control_bit L1 s) (control_bit L3 s) then L2
  else L1.

(** * Properties *)

(** Linear arithmetic with division and remainder by constants. *)
Ltac dlia := Z.div_mod_to_equations; lia.

(** ** Known values *)

Example keysetup_test_vector :
  exec (keysetup 0x911A2B3C4D5E6F0F 0x134) (Regs 7 7 7)
  = Regs 0x488D1 0x16789A 0x5E6F0F.
Proof. vm_compute. reflexivity. Qed.

Example test_run :
  test (Mem (Regs 0 0 0) (replicate 15 0xAA) (replicate 15 0x55))
  = Some (Mem (Regs 0x23475 0x33c4d7 0x66f0f3)
              (0x3C :: replicate 14 0) (replicate 15 0)).
Proof. vm_compute. reflexivity. Qed.

(** ** Bit-level facts about words *)

Section BitFacts.

Lemma land_1_testbit (x : Z) : x .& 1 = Z.b2z (Z.testbit x 0).
Proof.
  change 1 with (Z.ones 1). rewrite Z.land_ones by lia.
  rewrite Z.bit0_mod. reflexivity.
Qed.

Lemma land_pow2_testbit (x k : Z) :
  0 <= k -> x .& 2 ^ k = if Z.testbit x k then 2 ^ k else 0.
Proof.
  intros Hk. apply Z.bits_inj'. intros n Hn.
  rewrite Z.land_spec.
  destruct (Z.eq_dec n k) as [->|Hne].
  - rewrite Z.pow2_bits_true by lia.
    destruct (Z.testbit x k); simpl.
    + now rewrite Z.pow2_bits_true by lia.
    + now rewrite Z.bits_0.
  - rewrite Z.pow2_bits_false by lia. rewrite andb_false_r.
    destruct (Z.testbit x k).
    + now rewrite Z.pow2_bits_false by lia.
    + now rewrite Z.bits_0.
Qed.

Lemma nonzero_land_pow2 (x k : Z) :
  0 <= k -> nonzero (x .& 2 ^ k) = Z.b2z (Z.testbit x k).
Proof.
  intros Hk. rewrite land_pow2_testbit by assumption.
  unfold nonzero. destruct (Z.testbit x k); simpl.
  - destruct (Z.eqb_spec (2 ^ k) 0) as [E|_]; [|reflexivity].
    assert (0 < 2 ^ k) by (apply Z.pow_pos_nonneg; lia). lia.
  - reflexivity.
Qed.

Lemma shl_land_ones (x n k : Z) :
  0 <= k <= wordsize -> (x << n) .& Z.ones k = Z.shiftl x n .& Z.ones k.
Proof.
  intros Hk. unfold shl, wrap. rewrite !Z.land_ones by lia.
  apply Z.mod_mod_divide.
  exists (2 ^ (wordsize - k)).
  rewrite <- Z.pow_add_r by lia. f_equal. lia.
Qed.

End BitFacts.

(** ** Clock control *)

Section Clock.

Variables (allP loaded : Z).

(** The guards of the second and third [if] read registers the earlier
    assignments did not touch, so all three can be read off the entry
    state. *)
Lemma clock_lanes (s : regs) :
  clock allP loaded s =
  (tt,
   Regs (if clocks allP L1 s then clockone (R1 s) R1MASK R1TAPS else R1 s)
        (if clocks allP L2 s then clockone (R2 s) R2MASK R2TAPS else R2 s)
        (if clocks allP L3 s then clockone (R3 s) R3MASK R3TAPS else R3 s)).
Proof.
  destruct s as [a b c].
  unfold clock, clocks, maj_of, bind, rd, wr, when, ret; cbn [get set fst snd R1 R2 R3 MID].
  destruct (truthy allP || truthy (eq_int (nonzero (a .& R1MID)) _));
    cbn [get set fst snd R1 R2 R3];
    destruct (truthy allP || truthy (eq_int (nonzero (b .& R2MID)) _));
    cbn [get set fst snd R1 R2 R3];
    destruct (truthy allP || truthy (eq_int (nonzero (c .& R3MID)) _));
    reflexivity.
Qed.

Lemma clock_lane (l : lane) (s : regs) :
  get l (exec (clock allP loaded) s) =
  if clocks allP l s then clockone (get l s) (MASK l) (TAPS l) else get l s.
Proof.
  unfold exec. rewrite clock_lanes. destruct l; reflexivity.
Qed.

Lemma nonzero_mid (l : lane) (s : regs) :
  nonzero (get l s .& MID l) = Z.b2z (control_bit l s).
Proof.
  destruct l; cbn [get MID control_bit].
  - change R1MID with (2 ^ 8). now apply nonzero_land_pow2.
  - change R2MID with (2 ^ 10). now apply nonzero_land_pow2.
  - change R3MID with (2 ^ 10). now apply nonzero_land_pow2.
Qed.

Lemma maj_of_spec (s : regs) :
  maj_of s =
  Z.b2z (at_least_two (control_bit L1 s) (control_bit L2 s) (control_bit L3 s)).
Proof.
  unfold maj_of, majority.
  pose proof (nonzero_mid L1 s) as H1.
  pose proof (nonzero_mid L2 s) as H2.
  pose proof (nonzero_mid L3 s) as H3.
  cbn [get MID] in H1, H2, H3. rewrite H1, H2, H3.
  unfold at_least_two.
  destruct (control_bit L1 s), (control_bit L2 s), (control_bit L3 s);
    reflexivity.
Qed.

Lemma clocks_spec (l : lane) (s : regs) :
  clocks allP l s = should_clock (truthy allP) l s.
Proof.
  unfold clocks, should_clock. rewrite nonzero_mid, maj_of_spec.
  destruct (truthy allP); [reflexivity|]. cbn [orb].
  destruct (control_bit l s), (at_least_two _ _ _); reflexivity.
Qed.

Lemma clockone_mask (reg : word) (l : lane) :
  clockone reg (MASK l) (TAPS l) =
  (Z.shiftl reg 1 .& MASK l) .| parity (reg .& TAPS l).
Proof.
  unfold clockone. f_equal.
  destruct l; cbn [MASK].
  - change R1MASK with (Z.ones 19). apply shl_land_ones. unfold wordsize. lia.
  - change R2MASK with (Z.ones 22). apply shl_land_ones. unfold wordsize. lia.
  - change R3MASK with (Z.ones 23). apply shl_land_ones. unfold wordsize. lia.
Qed.

End Clock.

(** C1. From every state and for every [allP], [clock] advances lane Ri
    exactly when [allP] is set or Ri's control bit (bit 8 of R1, bit 10 of
    R2, bit 10 of R3) equals the majority of the three control bits of the
    entry state; an advanced lane becomes
    [((value << 1) & mask) | parity (value & taps)] with the masks
    0x07FFFF/0x3FFFFF/0x7FFFFF and taps 0x072000/0x300000/0x700080, and a
    lane not selected keeps its value. *)
Theorem clock_step_spec (allP loaded : Z) (s : regs) (l : lane) :
  get l (exec (clock allP loaded) s) =
  (if should_clock (negb (allP =? 0)) l s
   then (Z.shiftl (get l s) 1 .& MASK l) .| parity (get l s .& TAPS l)
   else get l s)
  /\ MASK L1 = 0x07FFFF /\ MASK L2 = 0x3FFFFF /\ MASK L3 = 0x7FFFFF
  /\ TAPS L1 = 0x072000 /\ TAPS L2 = 0x300000 /\ TAPS L3 = 0x700080.
Proof.
  split; [|repeat split].
  rewrite clock_lane, clocks_spec, clockone_mask. reflexivity.
Qed.

(** C7. On every clock step at least two of the three lanes advance, never
    zero or one; with [allP] set all three advance.  The lanes [clock]
    advances are those whose guard [clocks] holds on entry: each of them
    becomes its [clockone] value and every other lane keeps its value. *)
Theorem majority_clocking (allP loaded : Z) (s : regs) :
  (forall l,
      get l (exec (clock allP loaded) s) =
      if clocks allP l s then clockone (get l s) (MASK l) (TAPS l)
      else get l s)
  /\ 2 <= clocked_lanes allP s <= 3
  /\ (if allP =? 0 then True else clocked_lanes allP s = 3).
Proof.
  split; [intros l; apply clock_lane|].
  unfold clocked_lanes. rewrite !clocks_spec. unfold should_clock, truthy.
  destruct (allP =? 0); cbn [negb orb].
  - unfold at_least_two.
    destruct (control_bit L1 s), (control_bit L2 s), (control_bit L3 s);
      vm_compute; intuition discriminate.
  - vm_compute; intuition discriminate.
Qed.

(** ** Output bit *)

(** C3. [getbit] returns (bit 18 of R1) XOR (bit 21 of R2) XOR (bit 22 of
    R3) and leaves R1, R2, R3 as they were. *)
Theorem getbit_spec (s : regs) :
  getbit s =
  (Z.b2z (xorb (xorb (Z.testbit (R1 s) 18) (Z.testbit (R2 s) 21))
               (Z.testbit (R3 s) 22)),
   s).
Proof.
  unfold getbit, bind, rd, ret, shr; cbn [fst snd get].
  rewrite land_1_testbit, !Z.lxor_spec, !Z.shiftr_spec by lia.
  reflexivity.
Qed.

(** ** Key setup *)

Section Load.

Variables (l : lane) (shift : Z) (key : word).

Local Abbreviation body := (load_body l shift key).

Lemma get_set_same (v : word) (s : regs) : get l (set l v s) = v.
Proof. destruct l; reflexivity. Qed.

Lemma get_set_other (l' : lane) (v : word) (s : regs) :
  l' <> l -> get l' (set l v s) = get l' s.
Proof. destruct l, l'; intros H; try reflexivity; congruence. Qed.

Lemma set_set (v w : word) (s : regs) : set l w (set l v s) = set l w s.
Proof. destruct l; reflexivity. Qed.

Lemma body_exec (i : Z) (s : regs) :
  body i s =
  (tt, set l ((get l s << 1) .^ ((key >> (shift - i - 1)) .& 1)) s).
Proof.
  unfold load_body, bind, rd, wr; cbn [fst snd].
  now rewrite get_set_same, set_set.
Qed.

(** One iteration extends the loaded prefix of the key by one bit. *)
Lemma load_step (i r : Z) :
  0 <= i < wordsize -> i < shift ->
  r = (key >> (shift - i)) mod 2 ^ i ->
  (r << 1) .^ ((key >> (shift - i - 1)) .& 1)
  = (key >> (shift - (i + 1))) mod 2 ^ (i + 1).
Proof.
  unfold wordsize. intros Hi Hs ->.
  set (q := key >> (shift - (i + 1))).
  replace (shift - i - 1) with (shift - (i + 1)) by lia. fold q.
  assert (Hq : key >> (shift - i) = q / 2).
  { unfold q, shr. replace (shift - i) with (shift - (i + 1) + 1) by lia.
    rewrite <- Z.shiftr_shiftr by lia.
    rewrite (Z.shiftr_div_pow2 _ 1) by lia. reflexivity. }
  rewrite Hq.
  assert (Hpos : 0 < 2 ^ i) by (apply Z.pow_pos_nonneg; lia).
  pose proof (Z.mod_pos_bound (q / 2) (2 ^ i) Hpos) as Hr.
  assert (Hshl : ((q / 2) mod 2 ^ i) << 1 = 2 * ((q / 2) mod 2 ^ i)).
  { unfold shl, wrap, wordsize. rewrite Z.shiftl_mul_pow2 by lia.
    rewrite Z.mod_small; [lia|].
    assert (2 ^ (i + 1) <= 2 ^ 64) by (apply Z.pow_le_mono_r; lia).
    rewrite Z.pow_add_r in H by lia. lia. }
  rewrite Hshl.
  change 1 with (Z.ones 1) at 1. rewrite Z.land_ones by lia.
  change (2 ^ 1) with 2.
  rewrite <- Z.add_nocarry_lxor.
  - rewrite Z.pow_add_r, (Z.mul_comm (2 ^ i)) by lia. change (2 ^ 1) with 2.
    rewrite Z.rem_mul_r by lia. lia.
  - apply Z.bits_inj'. intros n Hn. rewrite Z.land_spec, Z.bits_0.
    destruct (Z.eq_dec n 0) as [->|Hne].
    + rewrite Z.testbit_even_0. reflexivity.
    + replace (Z.testbit (q mod 2) n) with false; [apply andb_false_r|].
      symmetry. change 2 with (2 ^ 1) at 1.
      apply Z.mod_pow2_bits_high. lia.
Qed.

(** Loop invariant: after [i] iterations lane [l] holds the [i] key bits
    below offset [shift], and the other lanes are as before. *)
Lemma load_iterate (n : nat) (i : Z) (s : regs) :
  0 <= i -> i + Z.of_nat n <= wordsize -> i + Z.of_nat n <= shift ->
  get l s = (key >> (shift - i)) mod 2 ^ i ->
  iterate n i body s =
  (tt, set l ((key >> (shift - (i + Z.of_nat n))) mod 2 ^ (i + Z.of_nat n)) s).
Proof.
  revert i s. induction n as [|n IH]; intros i s Hi Hw Hs Hget.
  - cbn [iterate]. unfold ret. rewrite Z.add_0_r, <- Hget.
    destruct l, s; reflexivity.
  - cbn [iterate]. unfold bind at 1. rewrite body_exec. cbn [fst snd].
    rewrite (load_step i (get l s))
      by (unfold wordsize in *; first [assumption | lia]).
    rewrite IH; try lia.
    + rewrite set_set.
      replace (i + 1 + Z.of_nat n) with (i + Z.of_nat (S n)) by lia.
      reflexivity.
    + apply get_set_same.
Qed.

Lemma load_exec (size : Z) (s : regs) :
  0 <= size <= wordsize -> size <= shift -> get l s = 0 ->
  load l size shift key s =
  (tt, set l ((key >> (shift - size)) mod 2 ^ size) s).
Proof.
  intros Hsz Hsh H0. unfold load, for_.
  rewrite load_iterate; try lia.
  - rewrite Z.sub_0_r, Z2Nat.id by lia. reflexivity.
  - rewrite H0. change (2 ^ 0) with 1. now rewrite Z.mod_1_r.
Qed.

End Load.

Lemma keysetup_exec (key frame : word) (s0 : regs) :
  keysetup key frame s0 =
  (tt, Regs ((key >> 45) mod 2 ^ 19) ((key >> 23) mod 2 ^ 22) (key mod 2 ^ 23)).
Proof.
  unfold keysetup, bind, wr; cbn [fst snd].
  rewrite (load_exec L1) by (cbv; intuition discriminate). cbn [fst snd].
  rewrite (load_exec L2) by (cbv; intuition discriminate). cbn [fst snd].
  rewrite (load_exec L3) by (cbv; intuition discriminate).
  reflexivity.
Qed.

(** C2. For a 64-bit key and any frame value, [keysetup] leaves key bits
    63..45 in R1, bits 44..23 in R2 and bits 22..0 in R3, most significant
    bit first; the three ranges do not overlap and together are the whole
    key. *)
Theorem keysetup_loads_key (key frame : word) (s0 : regs) :
  is_word key ->
  let s := exec (keysetup key frame) s0 in
  R1 s = Z.shiftr key 45
  /\ R2 s = Z.shiftr key 23 .& Z.ones 22
  /\ R3 s = key .& Z.ones 23
  /\ key = R1 s * 2 ^ 45 + R2 s * 2 ^ 23 + R3 s.
Proof.
  intros Hk. cbv zeta. unfold is_word, wordsize in Hk.
  unfold exec. rewrite keysetup_exec. cbn [snd R1 R2 R3]. unfold shr.
  rewrite !Z.land_ones, !Z.shiftr_div_pow2 by lia.
  assert (H1 : (key / 2 ^ 45) mod 2 ^ 19 = key / 2 ^ 45).
  { apply Z.mod_small. split.
    - apply Z.div_pos; lia.
    - apply Z.div_lt_upper_bound; [lia|]. rewrite <- Z.pow_add_r by lia.
      exact (proj2 Hk). }
  rewrite H1. repeat split.
  pose proof (Z.rem_mul_r key (2 ^ 23) (2 ^ 22) ltac:(lia) ltac:(lia)) as E1.
  pose proof (Z.div_mod key (2 ^ 23 * 2 ^ 22) ltac:(lia)) as E2.
  rewrite <- Z.pow_add_r in E2 by lia. change (23 + 22) with 45 in E2.
  rewrite <- Z.pow_add_r in E1 by lia. change (23 + 22) with 45 in E1.
  lia.
Qed.

Lemma keysetup_loads_key_witness :
  let s := exec (keysetup 0x911A2B3C4D5E6F0F 0x134) (Regs 1 2 3) in
  R1 s = 0x488D1 /\ R2 s = 0x16789A /\ R3 s = 0x5E6F0F.
Proof.
  assert (Hk : is_word 0x911A2B3C4D5E6F0F) by (unfold is_word, wordsize; lia).
  destruct (keysetup_loads_key 0x911A2B3C4D5E6F0F 0x134 (Regs 1 2 3) Hk)
    as (H1 & H2 & H3 & _).
  cbv zeta. rewrite H1, H2, H3. repeat split; vm_compute; reflexivity.
Defined.

(** ** Width invariant *)

Lemma land_ones_fixed (k x : Z) : 0 <= k -> x .& Z.ones k = x -> 0 <= x < 2 ^ k.
Proof.
  intros Hk H. rewrite Z.land_ones in H by assumption. rewrite <- H.
  apply Z.mod_pos_bound. apply Z.pow_pos_nonneg; lia.
Qed.

Lemma parity_bit (x : word) : parity x = 0 \/ parity x = 1.
Proof.
  unfold parity. rewrite land_1_testbit.
  destruct (Z.testbit _ 0); [right|left]; reflexivity.
Qed.

Lemma clockone_width (l : lane) (reg : word) :
  0 <= clockone reg (MASK l) (TAPS l) < 2 ^ width l.
Proof.
  assert (Hm : MASK l = Z.ones (width l)) by (destruct l; reflexivity).
  assert (Hw : 1 <= width l) by (destruct l; cbv; discriminate).
  apply land_ones_fixed; [lia|].
  unfold clockone. rewrite Z.land_lor_distr_l, Hm.
  rewrite <- Z.land_assoc, Z.land_diag. f_equal.
  rewrite Z.land_ones by lia.
  apply Z.mod_small.
  assert (2 ^ 1 <= 2 ^ width l) by (apply Z.pow_le_mono_r; lia).
  change (2 ^ 1) with 2 in H.
  destruct (parity_bit (reg .& TAPS l)) as [-> | ->]; lia.
Qed.

(** C6. After [keysetup] and after every clock step from there, each
    register is within its declared width: R1 < 2^19, R2 < 2^22,
    R3 < 2^23, although the loading loops of [keysetup] apply no mask. *)
Theorem width_invariant (s : regs) :
  reachable s ->
  0 <= R1 s < 2 ^ 19 /\ 0 <= R2 s < 2 ^ 22 /\ 0 <= R3 s < 2 ^ 23.
Proof.
  intros H.
  enough (Hw : in_width s)
    by (split; [exact (Hw L1) | split; [exact (Hw L2) | exact (Hw L3)]]).
  induction H as [key frame s0 | allP loaded s Hs IH]; intros l.
  - unfold exec. rewrite keysetup_exec. cbn [snd].
    destruct l; cbn [get R1 R2 R3 width];
      apply Z.mod_pos_bound; reflexivity.
  - rewrite clock_lane. destruct (clocks allP l s).
    + apply clockone_width.
    + apply IH.
Qed.

Lemma width_invariant_witness :
  let s := exec (clock 0 0) (exec (keysetup 0x911A2B3C4D5E6F0F 0x134) (Regs 0 0 0)) in
  0 <= R1 s < 2 ^ 19 /\ 0 <= R2 s < 2 ^ 22 /\ 0 <= R3 s < 2 ^ 23.
Proof.
  apply width_invariant. apply reach_clock. apply reach_keysetup.
Defined.

(** ** Parity *)

Section Parity.

Lemma popcount_mod2 (n : nat) (x : Z) :
  Z.of_nat (popcount n x) mod 2 = Z.b2z (xor_bits n x).
Proof.
  induction n as [|n IH]; [reflexivity|].
  cbn [popcount xor_bits]. rewrite Nat2Z.inj_add, Zplus_mod, IH.
  destruct (Z.testbit x (Z.of_nat n)), (xor_bits n x); reflexivity.
Qed.

Lemma xor_bits_lxor (n : nat) (a b : Z) :
  xor_bits n (a .^ b) = xorb (xor_bits n a) (xor_bits n b).
Proof.
  induction n as [|n IH]; [reflexivity|].
  cbn [xor_bits]. rewrite IH, Z.lxor_spec.
  destruct (Z.testbit a _), (Z.testbit b _), (xor_bits n a), (xor_bits n b);
    reflexivity.
Qed.

Lemma xor_bits_split (n m : nat) (x : Z) :
  xor_bits (n + m) x = xorb (xor_bits n x) (xor_bits m (x >> Z.of_nat n)).
Proof.
  induction m as [|m IH].
  - rewrite Nat.add_0_r. cbn [xor_bits]. now rewrite xorb_false_r.
  - rewrite Nat.add_succ_r. cbn [xor_bits]. rewrite IH.
    unfold shr. rewrite Z.shiftr_spec by lia.
    rewrite Nat2Z.inj_add, (Z.add_comm (Z.of_nat n)).
    destruct (Z.testbit x _), (xor_bits n x), (xor_bits m _); reflexivity.
Qed.

(** One folding step of [parity]: the XOR of the low [n] bits of
    [x ^ (x >> n)] is the XOR of the low [2n] bits of [x]. *)
Lemma xor_bits_fold (n : nat) (x : Z) :
  xor_bits n (x .^ (x >> Z.of_nat n)) = xor_bits (n + n) x.
Proof. now rewrite xor_bits_lxor, xor_bits_split. Qed.

Lemma parity_xor_bits (x : word) : parity x = Z.b2z (xor_bits 32 x).
Proof.
  unfold parity. rewrite land_1_testbit. f_equal.
  transitivity
    (xor_bits 1
       (let x := x .^ (x >> 16) in
        let x := x .^ (x >> 8) in
        let x := x .^ (x >> 4) in
        let x := x .^ (x >> 2) in
        x .^ (x >> 1))).
  { cbn [xor_bits]. now rewrite xorb_false_r. }
  cbv zeta.
  rewrite (xor_bits_fold 1), (xor_bits_fold 2), (xor_bits_fold 4),
    (xor_bits_fold 8), (xor_bits_fold 16).
  reflexivity.
Qed.

Lemma testbit_high (k x i : Z) :
  0 <= k -> 0 <= x < 2 ^ k -> k <= i -> Z.testbit x i = false.
Proof.
  intros Hk Hx Hi. rewrite <- (Z.mod_small x (2 ^ k)) by assumption.
  apply Z.mod_pow2_bits_high. lia.
Qed.

Lemma popcount_high (n m : nat) (x : Z) :
  0 <= x < 2 ^ Z.of_nat n -> popcount (n + m) x = popcount n x.
Proof.
  intros Hx. induction m as [|m IH].
  - now rewrite Nat.add_0_r.
  - rewrite Nat.add_succ_r. cbn [popcount].
    rewrite (testbit_high (Z.of_nat n)) by lia. exact IH.
Qed.

Lemma popcount_low (n : nat) (k x : Z) :
  Z.of_nat n <= k -> popcount n (x mod 2 ^ k) = popcount n x.
Proof.
  intros Hn. induction n as [|n IH]; [reflexivity|].
  cbn [popcount]. rewrite Z.mod_pow2_bits_low by lia. rewrite IH by lia.
  reflexivity.
Qed.

End Parity.

(** C5, as the code has it.  [parity] is total; on a machine word [x] it
    is the population count modulo 2 of the low 32 bits of [x], so for
    every 32-bit value [x] (0 and all-ones included) it is the population
    count of [x] modulo 2. *)
Theorem parity_popcount (x : word) :
  is_word x ->
  parity x = Z.of_nat (popcount 64 (x mod 2 ^ 32)) mod 2
  /\ (x < 2 ^ 32 -> parity x = Z.of_nat (popcount 64 x) mod 2).
Proof.
  intros [Hx _].
  assert (H : parity x = Z.of_nat (popcount 64 (x mod 2 ^ 32)) mod 2).
  { rewrite (popcount_high 32 32) by (apply Z.mod_pos_bound; reflexivity).
    rewrite popcount_low by reflexivity.
    rewrite popcount_mod2. apply parity_xor_bits. }
  split; [exact H|].
  intros Hlt. rewrite H, (Z.mod_small x) by lia. reflexivity.
Qed.

Lemma parity_popcount_witness :
  is_word 0xFFFFFFFF /\ 0xFFFFFFFF < 2 ^ 32
  /\ parity 0xFFFFFFFF = Z.of_nat (popcount 64 0xFFFFFFFF) mod 2.
Proof.
  assert (Hw : is_word 0xFFFFFFFF) by (unfold is_word, wordsize; lia).
  assert (Hlt : 0xFFFFFFFF < 2 ^ 32) by lia.
  split; [exact Hw|]. split; [exact Hlt|].
  exact (proj2 (parity_popcount 0xFFFFFFFF Hw) Hlt).
Defined.

(** C5 as stated fails on the 64-bit machine word: bit 32 is never folded
    into the result. *)
Lemma parity_not_popcount_of_word :
  is_word (2 ^ 32)
  /\ parity (2 ^ 32) = 0
  /\ Z.of_nat (popcount 64 (2 ^ 32)) mod 2 = 1
  /\ parity (2 ^ 32) <> Z.of_nat (popcount 64 (2 ^ 32)) mod 2.
Proof.
  split; [unfold is_word, wordsize; lia|].
  split; [vm_compute; reflexivity|].
  split; [vm_compute; reflexivity|].
  vm_compute. discriminate.
Qed.

Section Generate.

Lemma generate_S (n : nat) (s : regs) :
  generate (S n) s =
  (eval getbit s :: eval (generate n) (step s), exec (generate n) (step s)).
Proof. reflexivity. Qed.


Lemma generate_exec (n : nat) (s : regs) : exec (generate n) s = after n s.
Proof.
  revert s. induction n as [|n IH]; intros s; [reflexivity|].
  unfold exec, after. rewrite generate_S, Nat.iter_succ_r. cbn [snd].
  apply IH.
Qed.

Lemma generate_lookup (n i : nat) (s : regs) :
  (i < n)%nat -> eval (generate n) s !! i = Some (eval getbit (after i s)).
Proof.
  revert i s. induction n as [|n IH]; intros i s Hi; [lia|].
  unfold eval at 1. rewrite generate_S. cbn [fst].
  destruct i as [|i]; [reflexivity|].
  cbn [lookup list_lookup]. unfold after. rewrite Nat.iter_succ_r.
  apply IH. lia.
Qed.


End Generate.

(** ** The generation loop of [run] *)

Section Run.

Lemma getbit_eval (s : regs) : eval getbit s = Z.b2z (output_bit s).
Proof.
  unfold eval, getbit, bind, rd, ret, shr, output_bit; cbn [fst snd get].
  rewrite land_1_testbit, !Z.lxor_spec, !Z.shiftr_spec by lia.
  reflexivity.
Qed.

Lemma getbit_state (s : regs) : exec getbit s = s.
Proof. reflexivity. Qed.

Lemma testbit_b2z (c : bool) (n : Z) :
  Z.testbit (Z.b2z c) n = c && (n =? 0).
Proof.
  destruct c; cbn [Z.b2z andb]; [|apply Z.bits_0].
  destruct n as [|p|p]; reflexivity.
Qed.

Lemma testbit_shl_bit (c : bool) (n q : Z) :
  0 <= n < wordsize -> 0 <= q ->
  Z.testbit (Z.b2z c << n) q = c && (q =? n).
Proof.
  unfold wordsize. intros Hn Hq. unfold shl, wrap, wordsize.
  rewrite Z.testbit_mod_pow2, Z.shiftl_spec, testbit_b2z by lia.
  destruct (Z.eqb_spec q n) as [->|Hne].
  - rewrite Z.sub_diag. cbn [Z.eqb]. rewrite andb_true_r.
    destruct (Z.ltb_spec n 64); [reflexivity | lia].
  - destruct (Z.eqb_spec (q - n) 0); [lia|].
    now rewrite !andb_false_r.
Qed.

Lemma after_succ (k : Z) (s : regs) :
  0 <= k -> after (Z.to_nat (k + 1)) s = step (after (Z.to_nat k) s).
Proof.
  intros Hk. rewrite Z2Nat.inj_add by lia. rewrite Nat.add_comm.
  reflexivity.
Qed.

(** One iteration of the generation loop stores bit [k] of the keystream,
    taken before the registers are clocked. *)
Lemma emit_packed (s : regs) (k : Z) (m : mem) :
  0 <= k < 120 ->
  cipher m = after (Z.to_nat k) s ->
  packed s k (AtoBkeystream m) ->
  exists a,
    emit k m = Some (Mem (after (Z.to_nat (k + 1)) s) a (BtoAkeystream m))
    /\ packed s (k + 1) a.
Proof.
  intros Hk Hc [Hlen Hbits].
  assert (Hj : 0 <= k / 8 < 15) by dlia.
  assert (Hq : Z.quot k 8 = k / 8) by (apply Z.quot_div_nonneg; dlia).
  assert (Hland : k .& 7 = k mod 8)
    by (change 7 with (Z.ones 3); now rewrite Z.land_ones by dlia).
  unfold emit, load_byte, store_byte. rewrite Hq, Hlen, Hc.
  destruct (Z.leb_spec 0 (k / 8)); [|dlia].
  destruct (Z.ltb_spec (k / 8) (Z.of_nat 15)); [|dlia].
  rewrite (list_lookup_lookup_total_lt (AtoBkeystream m)) by dlia.
  cbn [andb mbind option_bind].
  eexists. split.
  - rewrite after_succ by dlia. reflexivity.
  - split; [now rewrite length_insert|].
    intros j q Hjr Hqr.
    change (fst (getbit (after (Z.to_nat k) s)))
      with (eval getbit (after (Z.to_nat k) s)).
    rewrite getbit_eval, Hland.
    destruct (Z.eq_dec j (k / 8)) as [->|Hne].
    + rewrite list_lookup_total_insert_eq by dlia.
      unfold to_byte. change 256 with (2 ^ 8).
      rewrite Z.testbit_mod_pow2, Z.lor_spec, Hbits by dlia.
      rewrite testbit_shl_bit by (unfold wordsize; dlia).
      unfold stored_bit.
      destruct (Z.ltb_spec q 8) as [Hq8|Hq8]; [|reflexivity].
      cbn [andb].
      destruct (Z.eqb_spec q (7 - k mod 8)) as [->|Hqne].
      * replace (8 * (k / 8) + 7 - (7 - k mod 8)) with k by dlia.
        rewrite Z.ltb_irrefl. cbn [andb orb]. rewrite andb_true_r.
        destruct (Z.ltb_spec k (k + 1)); [reflexivity | dlia].
      * rewrite andb_false_r, orb_false_r.
        destruct (Z.ltb_spec (8 * (k / 8) + 7 - q) k),
                 (Z.ltb_spec (8 * (k / 8) + 7 - q) (k + 1));
          try reflexivity; dlia.
    + rewrite list_lookup_total_insert_ne by dlia.
      rewrite Hbits by dlia. unfold stored_bit.
      destruct (Z.ltb_spec q 8) as [Hq8|Hq8]; [|reflexivity].
      cbn [andb].
      destruct (Z.ltb_spec (8 * j + 7 - q) k),
               (Z.ltb_spec (8 * j + 7 - q) (k + 1));
        try reflexivity; dlia.
Qed.

Lemma repeat_emit (s : regs) (n : nat) (k : Z) (m : mem) :
  0 <= k -> k + Z.of_nat n <= 120 ->
  cipher m = after (Z.to_nat k) s ->
  packed s k (AtoBkeystream m) ->
  exists a,
    repeat_from n k emit m
    = Some (Mem (after (Z.to_nat (k + Z.of_nat n)) s) a (BtoAkeystream m))
    /\ packed s (k + Z.of_nat n) a.
Proof.
  revert k m. induction n as [|n IH]; intros k m Hk Hn Hc Hp.
  - exists (AtoBkeystream m). rewrite Z.add_0_r. cbn [repeat_from].
    rewrite <- Hc. split; [now destruct m | assumption].
  - destruct (emit_packed s k m) as (a & He & Hpa); [lia|assumption..|].
    cbn [repeat_from]. rewrite He. cbn [mbind option_bind].
    destruct (IH (k + 1) (Mem (after (Z.to_nat (k + 1)) s) a (BtoAkeystream m)))
      as (a' & He' & Hpa'); [lia|lia|reflexivity|assumption|].
    exists a'. cbn [BtoAkeystream] in He'.
    replace (k + Z.of_nat (S n)) with (k + 1 + Z.of_nat n) by lia.
    split; assumption.
Qed.

End Run.

Section RunResult.

Lemma stored_bit_at (s : regs) (k i : Z) :
  0 <= i < k ->
  stored_bit s k (i / 8) (7 - i mod 8) = output_bit (after (Z.to_nat i) s).
Proof.
  intros Hi. unfold stored_bit.
  replace (8 * (i / 8) + 7 - (7 - i mod 8)) with i by dlia.
  destruct (Z.ltb_spec (7 - i mod 8) 8); [|dlia].
  destruct (Z.ltb_spec i k); [|lia].
  reflexivity.
Qed.

Lemma stored_bit_none (s : regs) (k j q : Z) :
  8 <= q \/ k <= 8 * j + 7 - q -> stored_bit s k j q = false.
Proof.
  intros H. unfold stored_bit.
  destruct (Z.ltb_spec q 8); [|reflexivity].
  destruct (Z.ltb_spec (8 * j + 7 - q) k); [lia|reflexivity].
Qed.

Lemma packed_is_byte (s : regs) (k : Z) (buf : list byte) (j : Z) :
  packed s k buf -> 0 <= j < 15 -> is_byte (buf !!! Z.to_nat j).
Proof.
  intros [_ Hbits] Hj. unfold is_byte. change 256 with (2 ^ 8).
  apply land_ones_fixed; [lia|].
  apply Z.bits_inj'. intros q Hq.
  rewrite Z.land_ones by lia.
  rewrite Z.testbit_mod_pow2, Hbits by lia.
  unfold stored_bit. destruct (q <? 8); reflexivity.
Qed.

Lemma packed_zero (s : regs) (k : Z) (buf : list byte) (j : Z) :
  packed s k buf -> 0 <= j < 15 -> k <= 8 * j -> buf !!! Z.to_nat j = 0.
Proof.
  intros [_ Hbits] Hj Hk. apply Z.bits_inj'. intros q Hq.
  rewrite Hbits, Z.bits_0 by lia. apply stored_bit_none. lia.
Qed.

Lemma byte_bits (a : byte) :
  is_byte a ->
  a = 128 * Z.b2z (Z.testbit a 7) + 64 * Z.b2z (Z.testbit a 6)
      + 32 * Z.b2z (Z.testbit a 5) + 16 * Z.b2z (Z.testbit a 4)
      + 8 * Z.b2z (Z.testbit a 3) + 4 * Z.b2z (Z.testbit a 2)
      + 2 * Z.b2z (Z.testbit a 1) + Z.b2z (Z.testbit a 0).
Proof.
  unfold is_byte. intros Ha. rewrite !Z.testbit_spec' by lia.
  change (2 ^ 7) with 128. change (2 ^ 6) with 64. change (2 ^ 5) with 32.
  change (2 ^ 4) with 16. change (2 ^ 3) with 8. change (2 ^ 2) with 4.
  change (2 ^ 1) with 2. change (2 ^ 0) with 1.
  dlia.
Qed.

(** The first loop of [run] zeroes both 15-byte arrays. *)
Lemma zero_out_all (s : regs) (A B : list byte) :
  length A = 15%nat -> length B = 15%nat ->
  for_mem 0 (Z.quot 113 8 + 1) zero_out (Mem s A B)
  = Some (Mem s (replicate 15 0) (replicate 15 0)).
Proof.
  intros HA HB.
  do 15 (destruct A as [|? A]; [discriminate HA|]).
  destruct A; [|discriminate HA].
  do 15 (destruct B as [|? B]; [discriminate HB|]).
  destruct B; [|discriminate HB].
  reflexivity.
Qed.

Lemma packed_zeroes (s : regs) : packed s 0 (replicate 15 0).
Proof.
  split; [reflexivity|]. intros j q Hj Hq.
  rewrite stored_bit_none by lia.
  rewrite lookup_total_replicate_2 by lia. apply Z.bits_0.
Qed.

(** What [run] does on two 15-byte arrays: the registers are clocked six
    times and the A->B array holds the six bits taken before each clock. *)
Lemma run_packed (s : regs) (A B : list byte) :
  length A = 15%nat -> length B = 15%nat ->
  exists A',
    run (Mem s A B) = Some (Mem (after 6 s) A' (replicate 15 0))
    /\ packed s 6 A'.
Proof.
  intros HA HB. unfold run. rewrite zero_out_all by assumption.
  cbn [mbind option_bind]. unfold for_mem.
  destruct (repeat_emit s (Z.to_nat (6 - 0)) 0
              (Mem s (replicate 15 0) (replicate 15 0)))
    as (A' & Hrun & Hp); [lia | simpl; lia | reflexivity | apply packed_zeroes |].
  exists A'. split; assumption.
Qed.

(** The list [generate 6] collects is what [run] stores, and the
    registers [generate 6] leaves are the ones [run] leaves. *)
Lemma run_generate (s : regs) (A B : list byte) :
  length A = 15%nat -> length B = 15%nat ->
  exists A',
    run (Mem s A B) = Some (Mem (exec (generate 6) s) A' (replicate 15 0))
    /\ forall i, 0 <= i < 6 ->
         eval (generate 6) s !! Z.to_nat i
         = Some (Z.b2z (Z.testbit (A' !!! Z.to_nat (i / 8)) (7 - i mod 8))).
Proof.
  intros HA HB.
  destruct (run_packed s A B HA HB) as (A' & Hrun & Hlen & Hbits).
  exists A'. rewrite generate_exec. split; [exact Hrun|].
  intros i Hi. rewrite generate_lookup by lia.
  rewrite Hbits by dlia. rewrite stored_bit_at by lia.
  now rewrite getbit_eval.
Qed.

End RunResult.

(** C8. In the generation loop of [run] the bit is taken before the clock
    step: stored bit number [i] is [getbit] of the state after exactly [i]
    calls [clock(0,0)], and it sits in byte [i / 8] of the zeroed A->B
    array at bit position [7 - i mod 8]. *)
Theorem run_emits_before_clock (s : regs) (A B : list byte) :
  length A = 15%nat -> length B = 15%nat ->
  exists A' B',
    run (Mem s A B) = Some (Mem (after 6 s) A' B')
    /\ forall i, 0 <= i < 6 ->
         Z.b2z (Z.testbit (A' !!! Z.to_nat (i / 8)) (7 - i mod 8))
         = eval getbit (after (Z.to_nat i) s).
Proof.
  intros HA HB.
  destruct (run_packed s A B HA HB) as (A' & Hrun & Hlen & Hbits).
  exists A', (replicate 15 0). split; [exact Hrun|].
  intros i Hi. rewrite Hbits by dlia.
  rewrite stored_bit_at by lia. symmetry. apply getbit_eval.
Qed.

Lemma run_emits_before_clock_witness :
  exists A' B',
    run (Mem (Regs 0x488D1 0x16789A 0x5E6F0F)
             (replicate 15 0xAA) (replicate 15 0x55))
    = Some (Mem (after 6 (Regs 0x488D1 0x16789A 0x5E6F0F))
                A' B')
    /\ forall i, 0 <= i < 6 ->
         Z.b2z (Z.testbit (A' !!! Z.to_nat (i / 8)) (7 - i mod 8))
         = eval getbit
             (after (Z.to_nat i) (Regs 0x488D1 0x16789A 0x5E6F0F)).
Proof.
  apply (run_emits_before_clock (Regs 0x488D1 0x16789A 0x5E6F0F)
           (replicate 15 0xAA) (replicate 15 0x55)); reflexivity.
Defined.


(** C10. On two 15-byte arrays [run] returns with all 15 bytes of the B->A
    array zero and bytes 1..14 of the A->B array zero; byte 0 of the A->B
    array holds exactly six keystream bits, in its top six positions. *)
Theorem run_writes_six_bits (s : regs) (A B : list byte) :
  length A = 15%nat -> length B = 15%nat ->
  let b (i : nat) := eval getbit (after i s) in
  run (Mem s A B)
  = Some (Mem (after 6 s)
              (128 * b 0%nat + 64 * b 1%nat + 32 * b 2%nat
               + 16 * b 3%nat + 8 * b 4%nat + 4 * b 5%nat
                 :: replicate 14 0)
              (replicate 15 0)).
Proof.
  intros HA HB b.
  destruct (run_packed s A B HA HB) as (A' & Hrun & Hp).
  rewrite Hrun. do 3 f_equal.
  assert (Hz : forall j, 1 <= j < 15 -> A' !!! Z.to_nat j = 0)
    by (intros j Hj; apply (packed_zero s 6); [assumption | lia | lia]).
  assert (H0 : A' !!! Z.to_nat 0
               = 128 * b 0%nat + 64 * b 1%nat + 32 * b 2%nat
                 + 16 * b 3%nat + 8 * b 4%nat + 4 * b 5%nat).
  { rewrite (byte_bits (A' !!! Z.to_nat 0))
      by (apply (packed_is_byte s 6); [assumption | lia]).
    destruct Hp as [_ Hbits].
    rewrite (Hbits 0 0), (Hbits 0 1) by lia.
    rewrite !(stored_bit_none s 6 0) by lia.
    pose proof (fun i (Hi : 0 <= i < 6) => eq_trans (Hbits (i / 8) (7 - i mod 8)
                  ltac:(dlia) ltac:(dlia)) (stored_bit_at s 6 i Hi)) as Hi.
    pose proof (Hi 0 ltac:(lia)) as B0. pose proof (Hi 1 ltac:(lia)) as B1.
    pose proof (Hi 2 ltac:(lia)) as B2. pose proof (Hi 3 ltac:(lia)) as B3.
    pose proof (Hi 4 ltac:(lia)) as B4. pose proof (Hi 5 ltac:(lia)) as B5.
    clear Hi.
    change (Z.testbit (A' !!! Z.to_nat 0) 7 = output_bit (after 0 s)) in B0.
    change (Z.testbit (A' !!! Z.to_nat 0) 6 = output_bit (after 1 s)) in B1.
    change (Z.testbit (A' !!! Z.to_nat 0) 5 = output_bit (after 2 s)) in B2.
    change (Z.testbit (A' !!! Z.to_nat 0) 4 = output_bit (after 3 s)) in B3.
    change (Z.testbit (A' !!! Z.to_nat 0) 3 = output_bit (after 4 s)) in B4.
    change (Z.testbit (A' !!! Z.to_nat 0) 2 = output_bit (after 5 s)) in B5.
    rewrite B0, B1, B2, B3, B4, B5. unfold b. rewrite !getbit_eval.
    cbn [Z.b2z]. lia. }
  destruct Hp as [Hlen _].
  do 15 (destruct A' as [|? A']; [discriminate Hlen|]).
  destruct A'; [|discriminate Hlen].
  change (([z; z0; z1; z2; z3; z4; z5; z6; z7; z8; z9; z10; z11; z12; z13] : list Z)
          !!! Z.to_nat 0) with z in H0.
  rewrite H0.
  pose proof (Hz 1 ltac:(lia)) as E1. pose proof (Hz 2 ltac:(lia)) as E2.
  pose proof (Hz 3 ltac:(lia)) as E3. pose proof (Hz 4 ltac:(lia)) as E4.
  pose proof (Hz 5 ltac:(lia)) as E5. pose proof (Hz 6 ltac:(lia)) as E6.
  pose proof (Hz 7 ltac:(lia)) as E7. pose proof (Hz 8 ltac:(lia)) as E8.
  pose proof (Hz 9 ltac:(lia)) as E9. pose proof (Hz 10 ltac:(lia)) as E10.
  pose proof (Hz 11 ltac:(lia)) as E11. pose proof (Hz 12 ltac:(lia)) as E12.
  pose proof (Hz 13 ltac:(lia)) as E13. pose proof (Hz 14 ltac:(lia)) as E14.
  vm_compute in E1, E2, E3, E4, E5, E6, E7, E8, E9, E10, E11, E12, E13, E14.
  subst. reflexivity.
Qed.

Lemma run_writes_six_bits_witness :
  run (Mem (Regs 0x488D1 0x16789A 0x5E6F0F)
           (replicate 15 0xAA) (replicate 15 0x55))
  = Some (Mem (Regs 0x23475 0x33C4D7 0x66F0F3)
              (0x3C :: replicate 14 0) (replicate 15 0)).
Proof.
  rewrite (run_writes_six_bits (Regs 0x488D1 0x16789A 0x5E6F0F)
             (replicate 15 0xAA) (replicate 15 0x55)) by reflexivity.
  vm_compute. reflexivity.
Defined.

(** ** Successive calls of [run] *)





(** ** The frame number *)

(** C4. [keysetup] does not mix the frame number into the registers: for
    one key, any two frame values give the same registers (whatever the
    registers held before), hence the same keystream of any length. *)
Theorem frame_not_mixed (key f1 f2 : word) (s1 s2 : regs) :
  keysetup key f1 s1 = keysetup key f2 s2
  /\ forall n,
       generate n (exec (keysetup key f1) s1)
       = generate n (exec (keysetup key f2) s2).
Proof.
  assert (H : keysetup key f1 s1 = keysetup key f2 s2)
    by (now rewrite !keysetup_exec).
  split; [exact H|].
  intros n. unfold exec. now rewrite H.
Qed.

(** ** The shift registers as linear feedback shift registers *)

(** Evaluates the bits of a constant mask. *)
Ltac mask_bits :=
  repeat match goal with
         | |- context [Z.testbit (Zpos ?p) (Z.of_nat ?k)] =>
             let v := eval vm_compute in (Z.testbit (Zpos p) (Z.of_nat k)) in
             change (Z.testbit (Zpos p) (Z.of_nat k)) with v
         end.

Lemma parity_taps (l : lane) (reg : word) :
  parity (reg .& TAPS l) = Z.b2z (feedback l reg).
Proof.
  rewrite parity_xor_bits. f_equal.
  destruct l; cbn [TAPS feedback xor_bits];
    unfold R1TAPS, R2TAPS, R3TAPS;
    rewrite !Z.land_spec; mask_bits;
    rewrite ?andb_false_r, ?andb_true_r, ?xorb_false_l, ?xorb_false_r.
  all: rewrite ?xorb_assoc; reflexivity.
Qed.

Lemma MASK_ones (l : lane) : MASK l = Z.ones (width l).
Proof. destruct l; reflexivity. Qed.

Lemma width_pos (l : lane) : 19 <= width l <= 23.
Proof. destruct l; cbv; intuition discriminate. Qed.

Lemma clockone_bits (l : lane) (reg : word) (j : Z) :
  0 <= j ->
  Z.testbit (clockone reg (MASK l) (TAPS l)) j =
  if j =? 0 then feedback l reg else (j <? width l) && Z.testbit reg (j - 1).
Proof.
  intros Hj. pose proof (width_pos l) as Hw.
  rewrite clockone_mask, parity_taps, MASK_ones.
  rewrite Z.lor_spec, Z.land_spec, Z.shiftl_spec, testbit_b2z by lia.
  rewrite Z.testbit_ones_nonneg by lia.
  destruct (Z.eqb_spec j 0) as [->|Hne].
  - rewrite Z.testbit_neg_r by lia. cbn [andb orb]. apply andb_true_r.
  - rewrite andb_false_r, orb_false_r. apply andb_comm.
Qed.

Lemma feedback_lxor (l : lane) (a b : word) :
  feedback l (a .^ b) = xorb (feedback l a) (feedback l b).
Proof.
  destruct l; cbn [feedback]; rewrite !Z.lxor_spec;
    repeat match goal with |- context [Z.testbit ?x ?k] =>
             destruct (Z.testbit x k) end;
    reflexivity.
Qed.

Lemma clockone_lxor (l : lane) (a b : word) :
  clockone (a .^ b) (MASK l) (TAPS l)
  = clockone a (MASK l) (TAPS l) .^ clockone b (MASK l) (TAPS l).
Proof.
  apply Z.bits_inj'. intros j Hj.
  rewrite Z.lxor_spec, !clockone_bits by assumption.
  destruct (j =? 0); [apply feedback_lxor|].
  rewrite Z.lxor_spec.
  destruct (j <? width l), (Z.testbit a (j - 1)), (Z.testbit b (j - 1));
    reflexivity.
Qed.

Lemma clockone_inj (l : lane) (a b : word) :
  0 <= a < 2 ^ width l -> 0 <= b < 2 ^ width l ->
  clockone a (MASK l) (TAPS l) = clockone b (MASK l) (TAPS l) ->
  a = b.
Proof.
  intros Ha Hb H. pose proof (width_pos l) as Hw.
  assert (Hlow : forall j, 0 <= j < width l - 1 ->
                           Z.testbit a j = Z.testbit b j).
  { intros j Hj.
    pose proof (f_equal (fun x => Z.testbit x (j + 1)) H) as E. cbv beta in E.
    rewrite !clockone_bits in E by lia.
    destruct (Z.eqb_spec (j + 1) 0); [lia|].
    destruct (Z.ltb_spec (j + 1) (width l)); [|lia].
    replace (j + 1 - 1) with j in E by lia. exact E. }
  assert (Htop : Z.testbit a (width l - 1) = Z.testbit b (width l - 1)).
  { pose proof (f_equal (fun x => Z.testbit x 0) H) as E. cbv beta in E.
    rewrite !clockone_bits in E by lia. cbn [Z.eqb] in E.
    destruct l; cbn [feedback width] in *;
      unfold R1SIZE, R2SIZE, R3SIZE in *.
    - rewrite (Hlow 17), (Hlow 16), (Hlow 13) in E by lia.
      change (19 - 1) with 18.
      destruct (Z.testbit a 18), (Z.testbit b 18), (Z.testbit b 17),
        (Z.testbit b 16), (Z.testbit b 13); (reflexivity || discriminate E).
    - rewrite (Hlow 20) in E by lia.
      change (22 - 1) with 21.
      destruct (Z.testbit a 21), (Z.testbit b 21), (Z.testbit b 20);
        (reflexivity || discriminate E).
    - rewrite (Hlow 21), (Hlow 20), (Hlow 7) in E by lia.
      change (23 - 1) with 22.
      destruct (Z.testbit a 22), (Z.testbit b 22), (Z.testbit b 21),
        (Z.testbit b 20), (Z.testbit b 7); (reflexivity || discriminate E). }
  apply Z.bits_inj'. intros j Hj.
  destruct (Z.lt_trichotomy j (width l - 1)) as [Hlt|[->|Hgt]].
  - apply Hlow. lia.
  - exact Htop.
  - rewrite (testbit_high (width l) a), (testbit_high (width l) b) by lia.
    reflexivity.
Qed.

Lemma parity_lxor (a b : word) : parity (a .^ b) = parity a .^ parity b.
Proof.
  rewrite !parity_xor_bits, xor_bits_lxor.
  destruct (xor_bits 32 a), (xor_bits 32 b); reflexivity.
Qed.

(** ** Which lanes are clocked *)

Lemma clocked_lanes_count (allP : Z) (s : regs) :
  clocked_lanes allP s =
  if truthy allP || control_bits_agree s then 3 else 2.
Proof.
  unfold clocked_lanes, control_bits_agree. rewrite !clocks_spec.
  unfold should_clock, at_least_two.
  destruct (truthy allP); [reflexivity|].
  destruct (control_bit L1 s), (control_bit L2 s), (control_bit L3 s);
    reflexivity.
Qed.

(** ** Key setup as a bijection *)

Lemma key_of_word (s : regs) : in_width s -> is_word (key_of s).
Proof.
  intros H. pose proof (H L1) as H1. pose proof (H L2) as H2.
  pose proof (H L3) as H3. cbn [get width] in H1, H2, H3.
  unfold R1SIZE, R2SIZE, R3SIZE in *. unfold is_word, wordsize, key_of.
  lia.
Qed.

Lemma keysetup_key_of (frame : word) (s s0 : regs) :
  in_width s -> exec (keysetup (key_of s) frame) s0 = s.
Proof.
  intros H. pose proof (H L1) as H1. pose proof (H L2) as H2.
  pose proof (H L3) as H3. cbn [get width] in H1, H2, H3.
  unfold R1SIZE, R2SIZE, R3SIZE in *.
  unfold exec. rewrite keysetup_exec. cbn [snd]. unfold shr, key_of.
  rewrite !Z.shiftr_div_pow2 by lia.
  destruct s as [a b c]. cbn [R1 R2 R3] in *.
  f_equal; dlia.
Qed.

Lemma key_of_keysetup (key frame : word) (s0 : regs) :
  is_word key -> key_of (exec (keysetup key frame) s0) = key.
Proof.
  unfold is_word, wordsize. intros Hk.
  unfold exec. rewrite keysetup_exec. cbn [snd]. unfold key_of, shr.
  cbn [R1 R2 R3]. rewrite !Z.shiftr_div_pow2 by lia.
  dlia.
Qed.

(** ** The zero key *)

Lemma step_zero : step (Regs 0 0 0) = Regs 0 0 0.
Proof. vm_compute. reflexivity. Qed.

Lemma generate_zero (n : nat) :
  generate n (Regs 0 0 0) = (replicate n 0, Regs 0 0 0).
Proof.
  induction n as [|n IH]; [reflexivity|].
  rewrite generate_S, step_zero. unfold eval, exec. rewrite IH.
  reflexivity.
Qed.

(** ** [run] and the size of its arrays *)

Section RunBounds.

Lemma store_byte_length (buf buf' : list byte) (i v : Z) :
  store_byte buf i v = Some buf' -> length buf' = length buf.
Proof.
  unfold store_byte. destruct (_ && _); [|discriminate].
  intros [= <-]. apply length_insert.
Qed.

Lemma store_byte_app (buf t buf' : list byte) (i v : Z) :
  store_byte buf i v = Some buf' ->
  store_byte (buf ++ t) i v = Some (buf' ++ t).
Proof.
  unfold store_byte. rewrite length_app.
  destruct (Z.leb_spec 0 i); [|discriminate].
  destruct (Z.ltb_spec i (Z.of_nat (length buf))); [|discriminate].
  cbn [andb]. intros [= <-].
  destruct (Z.ltb_spec i (Z.of_nat (length buf + length t))); [|lia].
  now rewrite insert_app_l by lia.
Qed.

Lemma load_byte_app (buf t : list byte) (i x : Z) :
  load_byte buf i = Some x -> load_byte (buf ++ t) i = Some x.
Proof.
  unfold load_byte. destruct (0 <=? i); [|discriminate].
  intros H. rewrite lookup_app_l; [exact H|].
  now apply lookup_lt_Some in H.
Qed.

Lemma zero_out_extend (ta tb : list byte) (i : Z) (m m' : mem) :
  zero_out i m = Some m' ->
  zero_out i (extend ta tb m) = Some (extend ta tb m').
Proof.
  unfold zero_out, extend. cbn [cipher AtoBkeystream BtoAkeystream].
  destruct (store_byte (BtoAkeystream m) i 0) as [b|] eqn:Eb; [|discriminate].
  cbn [mbind option_bind].
  destruct (store_byte (AtoBkeystream m) i 0) as [a|] eqn:Ea; [|discriminate].
  cbn [mbind option_bind]. intros [= <-].
  rewrite (store_byte_app _ tb _ _ _ Eb). cbn [mbind option_bind].
  rewrite (store_byte_app _ ta _ _ _ Ea). reflexivity.
Qed.

Lemma emit_extend (ta tb : list byte) (i : Z) (m m' : mem) :
  emit i m = Some m' -> emit i (extend ta tb m) = Some (extend ta tb m').
Proof.
  unfold emit, extend. cbn [cipher AtoBkeystream BtoAkeystream].
  destruct (load_byte (AtoBkeystream m) (Z.quot i 8)) as [old|] eqn:El;
    [|discriminate].
  cbn [mbind option_bind].
  destruct (store_byte (AtoBkeystream m) (Z.quot i 8) _) as [a|] eqn:Ea;
    [|discriminate].
  cbn [mbind option_bind]. intros [= <-].
  rewrite (load_byte_app _ ta _ _ El). cbn [mbind option_bind].
  rewrite (store_byte_app _ ta _ _ _ Ea). reflexivity.
Qed.

Lemma repeat_from_extend (ta tb : list byte)
    (body : Z -> mem -> option mem) (n : nat) (i : Z) (m m' : mem) :
  (forall i m m', body i m = Some m' ->
                  body i (extend ta tb m) = Some (extend ta tb m')) ->
  repeat_from n i body m = Some m' ->
  repeat_from n i body (extend ta tb m) = Some (extend ta tb m').
Proof.
  intros Hbody. revert i m. induction n as [|n IH]; intros i m.
  - cbn [repeat_from]. now intros [= <-].
  - cbn [repeat_from]. destruct (body i m) as [m1|] eqn:E; [|discriminate].
    cbn [mbind option_bind]. intros H.
    rewrite (Hbody _ _ _ E). cbn [mbind option_bind]. now apply IH.
Qed.

Lemma run_extend (ta tb : list byte) (m m' : mem) :
  run m = Some m' -> run (extend ta tb m) = Some (extend ta tb m').
Proof.
  unfold run, for_mem.
  destruct (repeat_from _ 0 zero_out m) as [m1|] eqn:E; [|discriminate].
  cbn [mbind option_bind]. intros H.
  rewrite (repeat_from_extend ta tb zero_out _ _ _ _
             (zero_out_extend ta tb) E).
  cbn [mbind option_bind].
  exact (repeat_from_extend ta tb emit _ _ _ _ (emit_extend ta tb) H).
Qed.

Lemma store_byte_Some (buf buf' : list byte) (i v : Z) :
  store_byte buf i v = Some buf' ->
  0 <= i < Z.of_nat (length buf) /\ length buf' = length buf.
Proof.
  intros H. split; [|exact (store_byte_length _ _ _ _ H)].
  unfold store_byte in H.
  destruct (Z.leb_spec 0 i); [|discriminate].
  destruct (Z.ltb_spec i (Z.of_nat (length buf))); [lia|discriminate].
Qed.

Lemma zero_out_Some (i : Z) (m m' : mem) :
  zero_out i m = Some m' ->
  i < Z.of_nat (length (AtoBkeystream m))
  /\ i < Z.of_nat (length (BtoAkeystream m))
  /\ length (AtoBkeystream m') = length (AtoBkeystream m)
  /\ length (BtoAkeystream m') = length (BtoAkeystream m).
Proof.
  unfold zero_out.
  destruct (store_byte (BtoAkeystream m) i 0) as [b|] eqn:Eb; [|discriminate].
  cbn [mbind option_bind].
  destruct (store_byte (AtoBkeystream m) i 0) as [a|] eqn:Ea; [|discriminate].
  cbn [mbind option_bind]. intros [= <-]. cbn [AtoBkeystream BtoAkeystream].
  apply store_byte_Some in Eb, Ea. intuition lia.
Qed.

(** The zeroing loop runs off the end of an array that is too short. *)
Lemma zero_out_short (n : nat) (i : Z) (m : mem) :
  i <= Z.of_nat (length (AtoBkeystream m)) ->
  i <= Z.of_nat (length (BtoAkeystream m)) ->
  Z.of_nat (length (AtoBkeystream m)) < i + Z.of_nat n
  \/ Z.of_nat (length (BtoAkeystream m)) < i + Z.of_nat n ->
  repeat_from n i zero_out m = None.
Proof.
  revert i m. induction n as [|n IH]; intros i m HA HB Hn; [lia|].
  cbn [repeat_from].
  destruct (zero_out i m) as [m1|] eqn:E; [|reflexivity].
  cbn [mbind option_bind].
  apply zero_out_Some in E. destruct E as (Ha & Hb & La & Lb).
  apply IH; rewrite ?La, ?Lb; lia.
Qed.

Lemma run_short (m : mem) :
  (length (AtoBkeystream m) < 15)%nat \/ (length (BtoAkeystream m) < 15)%nat ->
  run m = None.
Proof.
  intros H. unfold run, for_mem.
  rewrite zero_out_short; [reflexivity|lia..|].
  change (Z.of_nat (Z.to_nat (Z.quot 113 8 + 1 - 0))) with 15. lia.
Qed.

Lemma run_append (s s' : regs) (A B A' B' ta tb : list byte) :
  run (Mem s A B) = Some (Mem s' A' B') ->
  run (Mem s (A ++ ta) (B ++ tb)) = Some (Mem s' (A' ++ ta) (B' ++ tb)).
Proof. intros H. exact (run_extend ta tb _ _ H). Qed.

Lemma run_long (s : regs) (A B : list byte) :
  (15 <= length A)%nat -> (15 <= length B)%nat ->
  exists A',
    run (Mem s A B)
    = Some (Mem (after 6 s) (A' ++ drop 15 A) (replicate 15 0 ++ drop 15 B))
    /\ packed s 6 A'.
Proof.
  intros HA HB.
  destruct (run_packed s (take 15 A) (take 15 B)) as (A' & Hrun & Hp).
  { rewrite length_take. lia. }
  { rewrite length_take. lia. }
  exists A'. split; [|exact Hp].
  assert (E : Mem s A B
              = Mem s (take 15 A ++ drop 15 A) (take 15 B ++ drop 15 B))
    by now rewrite !take_drop.
  rewrite E. apply run_append. exact Hrun.
Qed.

End RunBounds.

(** ** Known values of [printR] *)

Example printR_int_conversion :
  printR 0xFFFFFFFF 4 "x" (replicate 4 0)
  = Some ("x-1 " +:+ tab +:+ "1111 " +:+ newline).
Proof. vm_compute. reflexivity. Qed.

Example printR_R1 :
  printR 0x488D1 19 "R1 = " (replicate 19 7)
  = Some ("R1 = 297169 " +:+ tab +:+ "1001 0001 0001 1010 001" +:+ newline).
Proof. vm_compute. reflexivity. Qed.

(** ** [printR] *)

Section PrintR.

Variables (R : word) (size : Z).

Lemma msb_bits_length (n : nat) : length (msb_bits R n) = n.
Proof. induction n as [|n IH]; [reflexivity|]. cbn [msb_bits length]. now f_equal. Qed.

Lemma msb_bits_lookup (n j : nat) :
  (j < n)%nat ->
  msb_bits R n !! j = Some ((R >> (Z.of_nat n - 1 - Z.of_nat j)) .& 1).
Proof.
  revert j. induction n as [|n IH]; intros j Hj; [lia|].
  cbn [msb_bits]. destruct j as [|j].
  - cbn [lookup list_lookup]. do 3 f_equal. lia.
  - cbn [lookup list_lookup]. rewrite IH by lia. do 3 f_equal. lia.
Qed.

(** The first loop: iterations [i .. size-1] write cells [size-1-i .. 0]
    and leave the others alone. *)
Lemma fill_loop (n : nat) (i : Z) (arr : list bit) :
  0 <= i -> i + Z.of_nat n = size -> Z.of_nat (length arr) = size ->
  exists arr',
    repeat_opt n i (fill_bit R size) arr = Some arr'
    /\ length arr' = length arr
    /\ (forall j, 0 <= j < size - i ->
          arr' !! Z.to_nat j = Some ((R >> (size - 1 - j)) .& 1))
    /\ (forall j, size - i <= j -> arr' !! Z.to_nat j = arr !! Z.to_nat j).
Proof.
  revert i arr. induction n as [|n IH]; intros i arr Hi Hn Hlen.
  - exists arr. cbn [repeat_opt]. repeat split; intros; first [reflexivity | lia].
  - assert (E : fill_bit R size i arr
                 = Some (<[Z.to_nat (size - i - 1) := (R >> i) .& 1]> arr)).
    { unfold fill_bit, store_byte.
      destruct (Z.leb_spec 0 (size - i - 1)); [|lia].
      destruct (Z.ltb_spec (size - i - 1) (Z.of_nat (length arr))); [|lia].
      reflexivity. }
    cbn [repeat_opt]. rewrite E. cbn [mbind option_bind].
    destruct (IH (i + 1) (<[Z.to_nat (size - i - 1) := (R >> i) .& 1]> arr))
      as (arr' & Hrun & Hl & Hset & Hkeep);
      [lia | lia | rewrite length_insert; lia |].
    exists arr'. rewrite length_insert in Hl.
    split; [exact Hrun|]. split; [exact Hl|]. split.
    + intros j Hj. destruct (Z.eq_dec j (size - i - 1)) as [->|Hne].
      * rewrite Hkeep by lia. rewrite list_lookup_insert_eq by lia.
        do 3 f_equal. lia.
      * apply Hset. lia.
    + intros j Hj. rewrite Hkeep by lia.
      apply list_lookup_insert_ne. lia.
Qed.

Lemma fill_all (block : list bit) :
  0 <= size -> length block = Z.to_nat size ->
  for_opt 0 size (fill_bit R size) block = Some (msb_bits R (Z.to_nat size)).
Proof.
  intros Hs Hlen. unfold for_opt.
  destruct (fill_loop (Z.to_nat (size - 0)) 0 block)
    as (arr' & Hrun & Hl & Hset & _); [lia..|].
  rewrite Hrun. f_equal. apply list_eq. intros j.
  destruct (Nat.lt_ge_cases j (Z.to_nat size)) as [Hj|Hj].
  - rewrite msb_bits_lookup by assumption.
    rewrite <- (Nat2Z.id j) at 1. rewrite Hset by lia.
    do 3 f_equal. lia.
  - rewrite !lookup_ge_None_2; [reflexivity | rewrite msb_bits_length; lia | lia].
Qed.

Lemma append_assoc (a b c : string) : (a +:+ b) +:+ c = a +:+ (b +:+ c).
Proof.
  induction a as [|x a IH]; [reflexivity|]. exact (f_equal (String x) IH).
Qed.

Lemma append_empty_r (a : string) : a +:+ "" = a.
Proof.
  induction a as [|x a IH]; [reflexivity|]. exact (f_equal (String x) IH).
Qed.

(** The second loop prints the cells from [i] on, in order. *)
Lemma print_loop (pre rest : list bit) (out : string) :
  repeat_opt (length rest) (Z.of_nat (length pre)) (print_bit (pre ++ rest)) out
  = Some (out +:+ show_bits (Z.of_nat (length pre)) rest).
Proof.
  revert pre out. induction rest as [|b rest IH]; intros pre out.
  - cbn [repeat_opt show_bits length]. now rewrite append_empty_r.
  - assert (E : print_bit (pre ++ b :: rest) (Z.of_nat (length pre)) out
                 = Some (if Z.rem (Z.of_nat (length pre)) 4 =? 3
                         then (out +:+ pretty (to_int b)) +:+ " "
                         else out +:+ pretty (to_int b))).
    { unfold print_bit, load_byte.
      destruct (Z.leb_spec 0 (Z.of_nat (length pre))); [|lia].
      rewrite Nat2Z.id, list_lookup_middle by reflexivity. reflexivity. }
    cbn [repeat_opt show_bits length]. rewrite E. cbn [mbind option_bind].
    replace (pre ++ b :: rest) with ((pre ++ [b]) ++ rest)
      by (now rewrite <- app_assoc).
    replace (Z.of_nat (length pre) + 1) with (Z.of_nat (length (pre ++ [b])))
      by (rewrite length_app; cbn [length]; lia).
    rewrite IH. f_equal.
    destruct (Z.rem (Z.of_nat (length pre)) 4 =? 3);
      now rewrite ?append_assoc, ?append_empty_r.
Qed.

Lemma printR_text (str : string) (block : list bit) :
  0 <= size -> length block = Z.to_nat size ->
  printR R size str block
  = Some (str +:+ pretty (to_int R) +:+ " " +:+ tab
          +:+ show_bits 0 (msb_bits R (Z.to_nat size)) +:+ newline).
Proof.
  intros Hs Hlen. unfold printR. rewrite fill_all by assumption.
  cbn [mbind option_bind]. unfold for_opt.
  pose proof (print_loop [] (msb_bits R (Z.to_nat size))) as H.
  cbn [app length] in H. change (Z.of_nat 0) with 0 in H.
  rewrite msb_bits_length in H. rewrite Z.sub_0_r, H.
  cbn [mbind option_bind]. now rewrite !append_assoc.
Qed.

Lemma binary_value_msb (n : nat) (acc : Z) :
  fold_left (fun a b => 2 * a + b) (msb_bits R n) acc
  = acc * 2 ^ Z.of_nat n + R mod 2 ^ Z.of_nat n.
Proof.
  revert acc. induction n as [|n IH]; intros acc.
  - cbn [msb_bits fold_left]. change (2 ^ Z.of_nat 0) with 1.
    rewrite Z.mod_1_r. lia.
  - cbn [msb_bits fold_left]. rewrite IH.
    rewrite Nat2Z.inj_succ, Z.pow_succ_r by lia.
    unfold shr. change 1 with (Z.ones 1) at 1.
    rewrite Z.land_ones, Z.shiftr_div_pow2 by lia. change (2 ^ 1) with 2.
    assert (0 < 2 ^ Z.of_nat n) by (apply Z.pow_pos_nonneg; lia).
    rewrite (Z.mul_comm 2 (2 ^ Z.of_nat n)).
    rewrite (Z.rem_mul_r R (2 ^ Z.of_nat n) 2) by lia.
    lia.
Qed.

End PrintR.

(** ** Frozen states *)

Lemma clockone_zero (l : lane) : clockone 0 (MASK l) (TAPS l) = 0.
Proof. destruct l; vm_compute; reflexivity. Qed.

Lemma step_frozen (l : lane) (s : regs) :
  (forall l', l' <> l -> get l' s = 0) ->
  control_bit l s = true ->
  step s = s.
Proof.
  intros Hz Hc. unfold step, exec. rewrite clock_lanes. cbn [snd].
  assert (Z1 : clockone 0 R1MASK R1TAPS = 0) by exact (clockone_zero L1).
  assert (Z2 : clockone 0 R2MASK R2TAPS = 0) by exact (clockone_zero L2).
  assert (Z3 : clockone 0 R3MASK R3TAPS = 0) by exact (clockone_zero L3).
  rewrite !clocks_spec. unfold should_clock, at_least_two. cbn [truthy Z.eqb negb orb].
  destruct s as [a b c].
  destruct l; cbn [control_bit R1 R2 R3] in *.
  - pose proof (Hz L2 ltac:(discriminate)) as E2.
    pose proof (Hz L3 ltac:(discriminate)) as E3.
    cbn [get R2 R3] in E2, E3. subst b c. rewrite Hc.
    change (Z.testbit 0 10) with false. cbn [Z.b2z eqb]. 
    change (2 <=? 1 + 0 + 0) with false. cbv iota.
    now rewrite Z2, Z3.
  - pose proof (Hz L1 ltac:(discriminate)) as E1.
    pose proof (Hz L3 ltac:(discriminate)) as E3.
    cbn [get R1 R3] in E1, E3. subst a c. rewrite Hc.
    change (Z.testbit 0 10) with false. change (Z.testbit 0 8) with false.
    cbn [Z.b2z eqb]. change (2 <=? 0 + 1 + 0) with false. cbv iota.
    now rewrite Z1, Z3.
  - pose proof (Hz L1 ltac:(discriminate)) as E1.
    pose proof (Hz L2 ltac:(discriminate)) as E2.
    cbn [get R1 R2] in E1, E2. subst a b. rewrite Hc.
    change (Z.testbit 0 10) with false. change (Z.testbit 0 8) with false.
    cbn [Z.b2z eqb]. change (2 <=? 0 + 0 + 1) with false. cbv iota.
    now rewrite Z1, Z2.
Qed.

Lemma generate_fixed (n : nat) (s : regs) :
  step s = s -> generate n s = (replicate n (eval getbit s), s).
Proof.
  intros Hs. induction n as [|n IH]; [reflexivity|].
  rewrite generate_S, Hs. unfold eval at 2, exec. rewrite IH. reflexivity.
Qed.

(** * Further properties of the program *)

(** X1. [clockone] with a lane's mask and taps is one step of a linear
    feedback shift register: bit 0 of the result is the XOR of the tap bits
    of the old value, bit [j] for [0 < j < width] is the old bit [j - 1],
    and the bits from the width on are zero. *)
Theorem lfsr_step_bits (l : lane) (reg : word) (j : Z) :
  0 <= j ->
  Z.testbit (clockone reg (MASK l) (TAPS l)) j =
  if j =? 0 then feedback l reg else (j <? width l) && Z.testbit reg (j - 1).
Proof. apply clockone_bits. Qed.

Lemma lfsr_step_bits_witness :
  Z.testbit (clockone 0x488D1 (MASK L1) (TAPS L1)) 5 =
  (if 5 =? 0 then feedback L1 0x488D1
   else (5 <? width L1) && Z.testbit 0x488D1 (5 - 1)).
Proof. apply (lfsr_step_bits L1 0x488D1 5). lia. Defined.

(** X2. [clockone] is linear over XOR: clocking the XOR of two register
    values gives the XOR of the two clocked values. *)
Theorem lfsr_step_linear (l : lane) (a b : word) :
  clockone (a .^ b) (MASK l) (TAPS l)
  = clockone a (MASK l) (TAPS l) .^ clockone b (MASK l) (TAPS l).
Proof. apply clockone_lxor. Qed.

(** X3. On values within the lane's width [clockone] is injective: the
    top bit is a tap, so the old value can be recovered from the new one. *)
Theorem lfsr_step_injective (l : lane) (a b : word) :
  0 <= a < 2 ^ width l -> 0 <= b < 2 ^ width l ->
  clockone a (MASK l) (TAPS l) = clockone b (MASK l) (TAPS l) ->
  a = b.
Proof. apply clockone_inj. Qed.

Lemma lfsr_step_injective_witness : 0x488D1 = 0x488D1.
Proof.
  apply (lfsr_step_injective L1 0x488D1 0x488D1).
  - vm_compute. intuition discriminate.
  - vm_compute. intuition discriminate.
  - reflexivity.
Defined.

(** X4. [parity] is linear over XOR. *)
Theorem parity_linear (a b : word) : parity (a .^ b) = parity a .^ parity b.
Proof. apply parity_lxor. Qed.

(** X5. [clock] advances all three lanes when [allP] is set or the three
    control bits agree, and exactly two lanes otherwise: every lane but
    the one whose control bit differs from the other two. *)
Theorem clocked_lanes_exact (allP loaded : Z) (s : regs) :
  let all := Regs (clockone (R1 s) R1MASK R1TAPS)
                  (clockone (R2 s) R2MASK R2TAPS)
                  (clockone (R3 s) R3MASK R3TAPS) in
  exec (clock allP loaded) s
  = (if truthy allP || control_bits_agree s then all
     else set (minority_lane s) (get (minority_lane s) s) all)
  /\ clocked_lanes allP s
     = (if truthy allP || control_bits_agree s then 3 else 2).
Proof.
  cbv zeta. split; [|apply clocked_lanes_count].
  unfold exec. rewrite clock_lanes. cbn [snd]. rewrite !clocks_spec.
  unfold should_clock, control_bits_agree, minority_lane, at_least_two.
  destruct (truthy allP); [reflexivity|]. cbn [orb].
  destruct s as [a b c]. cbn [R1 R2 R3].
  destruct (control_bit L1 _), (control_bit L2 _), (control_bit L3 _);
    reflexivity.
Qed.

(** X6. [keysetup] is injective on 64-bit keys: two keys that leave the
    same registers are equal, whatever the frame values. *)
Theorem keysetup_injective (k1 k2 f1 f2 : word) (s1 s2 : regs) :
  is_word k1 -> is_word k2 ->
  exec (keysetup k1 f1) s1 = exec (keysetup k2 f2) s2 ->
  k1 = k2.
Proof.
  intros H1 H2 E.
  rewrite <- (key_of_keysetup k1 f1 s1 H1), <- (key_of_keysetup k2 f2 s2 H2).
  now rewrite E.
Qed.

Lemma keysetup_injective_witness : 0x911A2B3C4D5E6F0F = 0x911A2B3C4D5E6F0F.
Proof.
  apply (keysetup_injective 0x911A2B3C4D5E6F0F 0x911A2B3C4D5E6F0F 0x134 0
           (Regs 1 2 3) (Regs 0 0 0)).
  - unfold is_word, wordsize. lia.
  - unfold is_word, wordsize. lia.
  - vm_compute. reflexivity.
Defined.

(** X7. Every register state within the widths is what [keysetup] leaves
    for a 64-bit key, namely the key whose bits 63..45, 44..23 and 22..0
    are the three registers. *)
Theorem keysetup_onto (frame : word) (s s0 : regs) :
  in_width s ->
  is_word (key_of s) /\ exec (keysetup (key_of s) frame) s0 = s.
Proof.
  intros H. split; [now apply key_of_word | now apply keysetup_key_of].
Qed.

Lemma keysetup_onto_witness :
  is_word (key_of (Regs 0x488D1 0x16789A 0x5E6F0F))
  /\ exec (keysetup (key_of (Regs 0x488D1 0x16789A 0x5E6F0F)) 0x134)
          (Regs 9 9 9)
     = Regs 0x488D1 0x16789A 0x5E6F0F.
Proof.
  apply (keysetup_onto 0x134 (Regs 0x488D1 0x16789A 0x5E6F0F) (Regs 9 9 9)).
  intros l. destruct l; vm_compute; intuition discriminate.
Defined.

(** X8. A state in which two registers are zero and the control bit of the
    third is set never changes under [clock(0,0)]: the two zero lanes are
    clocked and stay zero, the third is never clocked.  The keystream from
    such a state repeats one bit. *)
Theorem frozen_state_keystream (l : lane) (v : word) (n : nat) :
  control_bit l (set l v (Regs 0 0 0)) = true ->
  let s := set l v (Regs 0 0 0) in
  exec (clock 0 0) s = s
  /\ generate n s = (replicate n (eval getbit s), s).
Proof.
  intros Hc s.
  assert (Hs : step s = s).
  { apply (step_frozen l); [|exact Hc].
    intros l' Hne. subst s. rewrite get_set_other by assumption.
    destruct l'; reflexivity. }
  split; [exact Hs | now apply generate_fixed].
Qed.

Lemma frozen_state_keystream_witness :
  exec (clock 0 0) (Regs 0 0 1024) = Regs 0 0 1024
  /\ generate 8 (Regs 0 0 1024) = (replicate 8 0, Regs 0 0 1024).
Proof.
  apply (frozen_state_keystream L3 1024 8). reflexivity.
Defined.

(** X9. The all-zero state is a fixed point of [clock] for every [allP],
    so the zero key gives an all-zero keystream of any length, for every
    frame value. *)
Theorem zero_key_keystream (allP loaded frame : word) (s0 : regs) (n : nat) :
  exec (clock allP loaded) (Regs 0 0 0) = Regs 0 0 0
  /\ generate n (exec (keysetup 0 frame) s0) = (replicate n 0, Regs 0 0 0).
Proof.
  split.
  - unfold exec. rewrite clock_lanes. cbn [snd R1 R2 R3].
    pose proof (clockone_zero L1) as Z1. pose proof (clockone_zero L2) as Z2.
    pose proof (clockone_zero L3) as Z3. cbn [MASK TAPS] in Z1, Z2, Z3.
    rewrite Z1, Z2, Z3. now destruct (clocks _ L1 _), (clocks _ L2 _), (clocks _ L3 _).
  - unfold exec. rewrite keysetup_exec. cbn [snd]. apply generate_zero.
Qed.

(** X10. The step under majority control is not injective, even on states
    [keysetup] leaves: the keys 512 and 1024 give different registers with
    the same successor. *)
Theorem step_not_injective :
  ~ (forall s1 s2, reachable s1 -> reachable s2 ->
                   exec (clock 0 0) s1 = exec (clock 0 0) s2 -> s1 = s2).
Proof.
  intros H.
  specialize (H (exec (keysetup 512 0) (Regs 0 0 0))
                (exec (keysetup 1024 0) (Regs 0 0 0))
                (reach_keysetup _ _ _) (reach_keysetup _ _ _)).
  assert (E : exec (keysetup 512 0) (Regs 0 0 0)
              = exec (keysetup 1024 0) (Regs 0 0 0))
    by (apply H; vm_compute; reflexivity).
  vm_compute in E. discriminate E.
Qed.

(** X11. [run] writes cells 0..14 of both arrays: it stays within the
    arrays exactly when each has at least 15 bytes. *)
Theorem run_defined_iff (s : regs) (A B : list byte) :
  is_Some (run (Mem s A B))
  <-> (15 <= length A)%nat /\ (15 <= length B)%nat.
Proof.
  split.
  - intros [m' H].
    destruct (Nat.lt_ge_cases (length A) 15) as [HA|HA];
      [rewrite run_short in H by (left; exact HA); discriminate|].
    destruct (Nat.lt_ge_cases (length B) 15) as [HB|HB];
      [rewrite run_short in H by (right; exact HB); discriminate|].
    split; assumption.
  - intros [HA HB]. destruct (run_long s A B HA HB) as (A' & H & _).
    rewrite H. eexists. reflexivity.
Qed.

(** X12. [run] neither reads nor writes beyond byte 14: on longer arrays
    it does what it does on their first 15 bytes and leaves the rest. *)
Theorem run_leaves_tail (s : regs) (A B ta tb : list byte) :
  length A = 15%nat -> length B = 15%nat ->
  exists m',
    run (Mem s A B) = Some m'
    /\ run (Mem s (A ++ ta) (B ++ tb)) = Some (extend ta tb m').
Proof.
  intros HA HB. destruct (run_packed s A B HA HB) as (A' & Hrun & _).
  eexists. split; [exact Hrun|].
  exact (run_extend ta tb _ _ Hrun).
Qed.

Lemma run_leaves_tail_witness :
  exists m',
    run (Mem (Regs 0x488D1 0x16789A 0x5E6F0F)
             (replicate 15 0xAA) (replicate 15 0x55)) = Some m'
    /\ run (Mem (Regs 0x488D1 0x16789A 0x5E6F0F)
                (replicate 15 0xAA ++ [1; 2]) (replicate 15 0x55 ++ [3]))
       = Some (extend [1; 2] [3] m').
Proof.
  apply (run_leaves_tail (Regs 0x488D1 0x16789A 0x5E6F0F)
           (replicate 15 0xAA) (replicate 15 0x55) [1; 2] [3]); reflexivity.
Defined.

(** X13. Given the [size] cells [malloc] returns, whatever they hold,
    [printR] stays within them and prints the label, then [(int)R] as a
    decimal number (the low 32 bits of the register read as a two's
    complement number, not the register itself once it reaches 2^31), a
    space and a tab, then the low [size] bits of the register, most
    significant first, with a space after every fourth digit, and a
    newline. *)
Theorem printR_output (R : word) (size : Z) (str : string) (block : list bit) :
  0 <= size <= wordsize -> length block = Z.to_nat size ->
  printR R size str block
  = Some (str +:+ pretty (to_int R) +:+ " " +:+ tab
          +:+ show_bits 0 (msb_bits R (Z.to_nat size)) +:+ newline).
Proof. intros Hs Hlen. apply printR_text; [lia | exact Hlen]. Qed.

Lemma printR_output_witness :
  printR 0x488D1 19 "R1 = " (replicate 19 7)
  = Some ("R1 = " +:+ pretty (to_int 0x488D1) +:+ " " +:+ tab
          +:+ show_bits 0 (msb_bits 0x488D1 (Z.to_nat 19)) +:+ newline).
Proof.
  apply (printR_output 0x488D1 19 "R1 = " (replicate 19 7)).
  - unfold wordsize. lia.
  - reflexivity.
Defined.

(** X14. The binary digits [printR] collects in its array, read most
    significant first, are the number [R mod 2^size]: the register itself
    when it fits in [size] bits. *)
Theorem printR_digits_value (R : word) (size : Z) (block : list bit) :
  0 <= size <= wordsize -> length block = Z.to_nat size ->
  exists bitkeyarray,
    for_opt 0 size (fill_bit R size) block = Some bitkeyarray
    /\ binary_value bitkeyarray = R mod 2 ^ size.
Proof.
  intros Hs Hlen. exists (msb_bits R (Z.to_nat size)).
  split; [apply fill_all; [lia | exact Hlen]|].
  unfold binary_value. rewrite binary_value_msb, Z2Nat.id by lia. lia.
Qed.

Lemma printR_digits_value_witness :
  exists bitkeyarray,
    for_opt 0 19 (fill_bit 0x488D1 19) (replicate 19 7) = Some bitkeyarray
    /\ binary_value bitkeyarray = 0x488D1 mod 2 ^ 19.
Proof.
  apply (printR_digits_value 0x488D1 19 (replicate 19 7)).
  - unfold wordsize. lia.
  - reflexivity.
Defined.
